(** * Material visibility controller of the model-viewer demo

    A shallow embedding of the React component [AdvancedModelViewerDemo].
    The repository holds three copies of it. The embedding follows the copy
    with the model selector; the single-model copy with the material
    inspector is the same code without [currentModel] and its reset effect;
    the third copy, with group checkboxes only, keeps no material list and
    no material flags.

    - JavaScript numbers are IEEE binary64 values: Rocq's primitive floats.
    - The [<model-viewer>] element and its scene graph are records; every
      optional access of the source ([?.], [??], [Array.isArray],
      [typeof ... === 'string']) is an [option] here.
    - React state, the [originalColor] ref, the element behind [mvRef] and
      the observable effects (property writes, console warnings) live in one
      [World]; handlers are computations in a state-and-exception monad, so
      that a [throw] keeps the mutations done before it, as in JavaScript.
    - Strings are sequences of bytes, the UTF-8 form of (well-formed)
      JavaScript strings, on which equality and [includes] are those of
      the code units; [toLowerCase] and [localeCompare] are the engine's
      and are taken as given ([Js.Runtime]).
    - The plain objects the component uses as maps are finite maps for
      their own properties, read and written with the rules of
      [Object.prototype] behind them. *)

From Stdlib Require Import PrimFloat Ascii.
From Stdlib Require String.
From stdpp Require Import gmap strings list sorting.

(** ** JavaScript strings and numbers *)

Abbreviation number := float (only parsing).

Module Js.

(** What the engine supplies and the source calls by name:
    [String.prototype.toLowerCase], which lower-cases by the Unicode case
    mapping, and [String.prototype.localeCompare], which orders by the
    collation of the host locale; [localeCompare a b] is the number that
    [a.localeCompare(b)] returns, of which the sort looks at the sign only.
    Neither is written in the repository, so the component and its
    properties are stated for whatever functions the engine brings. *)
Class Runtime := {
  toLowerCase : string → string;
  localeCompare : string → string → Z
}.

(** A runtime for the sample data, whose names and patterns are made of
    ASCII characters: on these [toLowerCase] turns the letters [A]..[Z]
    into [a]..[z] and keeps every other character. Its [localeCompare] is
    a stand-in, the order of the character codes: what the engine's is
    depends on the host locale, and no sample depends on more than that two
    names starting with different capitals compare as these capitals. *)
Definition lowerChar (c : ascii) : ascii :=
  let n := Ascii.N_of_ascii c in
  if ((65 <=? n) && (n <=? 90))%N then Ascii.ascii_of_N (n + 32) else c.

Fixpoint asciiLowerCase (s : string) : string :=
  match s with
  | EmptyString => EmptyString
  | String c s' => String (lowerChar c) (asciiLowerCase s')
  end.

Definition asciiCompare (a b : string) : Z :=
  match String.compare a b with
  | Lt => (-1)%Z
  | Eq => 0%Z
  | Gt => 1%Z
  end.

Definition asciiRuntime : Runtime :=
  {| toLowerCase := asciiLowerCase; localeCompare := asciiCompare |}.

(** [s.includes(p)]: [p] occurs in [s] as a contiguous substring. *)
Fixpoint includes (s p : string) : bool :=
  String.prefix p s ||
  match s with
  | EmptyString => false
  | String _ s' => includes s' p
  end.

(** Truthiness of a possibly missing string: [undefined], [null] and the
    empty string are falsy. *)
Definition truthy (o : option string) : option string :=
  match o with
  | Some s => if decide (s = "") then None else Some s
  | None => None
  end.

(** [a || b] on possibly missing strings. *)
Definition or_else (o : option string) (d : string) : string :=
  default d (truthy o).

(** [alpha < 1] *)
Definition lt_one (alpha : number) : bool := PrimFloat.ltb alpha 1%float.

(** An exception value. *)
Inductive Error := TypeError (what : string).

(** *** Plain objects used as maps

    [vis], [materialVisibility], [groupVisibility] and [groups] are plain
    objects: [Record<string, ...>] created by an object literal. Their own
    properties are a [gmap]; behind them stands [Object.prototype], whose
    properties a read by key finds when the object has no own property of
    that name. These are its function-valued properties with the [length]
    of each function, and the accessor [__proto__]. *)
Definition objectPrototypeFunctions : list (string * nat) :=
  [("constructor", 1); ("hasOwnProperty", 1); ("isPrototypeOf", 1);
   ("propertyIsEnumerable", 1); ("toLocaleString", 0); ("toString", 0);
   ("valueOf", 0); ("__defineGetter__", 2); ("__defineSetter__", 2);
   ("__lookupGetter__", 1); ("__lookupSetter__", 1)].

Inductive Inherited :=
| PrototypeFunction (length : nat)
| PrototypeObject.

(** What [obj[k]] finds on [Object.prototype]; [obj.__proto__] is the
    prototype itself. *)
Definition inherited (k : string) : option Inherited :=
  if decide (k = "__proto__") then Some PrototypeObject
  else PrototypeFunction <$> (list_to_map objectPrototypeFunctions : gmap string nat) !! k.

(** [obj[k] = v] on an object of booleans. The assignment
    [obj.__proto__ = v] runs the setter of the accessor, which ignores a [v]
    that is neither an object nor [null]: no property is created. Every
    other key becomes an own property. (An object literal with a computed
    key, [{ ...obj, [k]: v }], defines an own property for every [k]: that
    is [<[k := v]>].) *)
Definition assign (k : string) (v : bool) (obj : gmap string bool) : gmap string bool :=
  if decide (k = "__proto__") then obj else <[k := v]> obj.

(** [!!obj[k]] on an object of booleans: the own property when there is
    one; what is inherited is a function or an object, hence truthy. *)
Definition truthyAt (obj : gmap string bool) (k : string) : bool :=
  match obj !! k with
  | Some b => b
  | None => bool_decide (is_Some (inherited k))
  end.

(** The value of [groups[groupKey] || []]: an array of patterns, or a value
    found on [Object.prototype], of which the source reads [length] (a
    number for a function, [undefined] for the prototype object) and calls
    [some]. *)
Inductive Patterns :=
| PatternArray (l : list string)
| NotAnArray (length : option nat).

Definition patternsAt (groups : gmap string (list string)) (k : string) : Patterns :=
  match groups !! k with
  | Some l => PatternArray l
  | None =>
      match inherited k with
      | Some (PrototypeFunction n) => NotAnArray (Some n)
      | Some PrototypeObject => NotAnArray None
      | None => PatternArray []
      end
  end.

(** [!patterns.length] *)
Definition noLength (patterns : Patterns) : bool :=
  match patterns with
  | PatternArray [] | NotAnArray None | NotAnArray (Some 0) => true
  | _ => false
  end.

End Js.

(** ** The renderer element and its scene graph *)

Inductive AlphaMode := OPAQUE | MASK | BLEND.

(** [[number, number, number, number]] *)
Record RGBA := Rgba { red : number; green : number; blue : number; alphaChannel : number }.

(** [[1,1,1,1]] *)
Definition white : RGBA := Rgba 1 1 1 1.

Module SceneGraph.

(** [m.pbrMetallicRoughness]: the base-colour accessor, and whether the
    duck-typed call [pmr.setBaseColorFactor(...)] goes through or raises. *)
Record PBRMetallicRoughness := {
  baseColorFactor : option RGBA;
  setBaseColorFactor_callable : bool
}.

(** A material object. [name = None] stands for a missing or [null] name,
    and for a nullish entry of the array (the source reads names through
    [m?.name] only). [setAlphaMode_callable] tells whether the duck-typed
    call [m.setAlphaMode(...)] goes through or raises. *)
Record Material := {
  name : option string;
  pbrMetallicRoughness : option PBRMetallicRoughness;
  alphaMode : AlphaMode;
  setAlphaMode_callable : bool
}.

(** [el.model]; [materials = None] when the field is nullish. *)
Record Model := { materials : option (list Material) }.

End SceneGraph.

Abbreviation Material := SceneGraph.Material.

(** [type MVElement = HTMLElement & { availableVariants?, variantName?, model? }];
    [availableVariants = None] when the property is not an array. *)
Record MVElement := {
  availableVariants : option (list string);
  variantName : option string;
  model : option SceneGraph.Model
}.

(** [el?.model?.materials ?? []] *)
Definition materialsOf (el : option MVElement) : list Material :=
  match el with
  | Some e =>
      match model e with
      | Some mdl => default [] (SceneGraph.materials mdl)
      | None => []
      end
  | None => []
  end.

(** ** Observable effects

    The writes to the renderer and to the console, in the order they happen.
    [CallSetMaterialAlpha] is no effect of the source: it marks each
    invocation of [setMaterialAlpha], for the properties that speak of the
    setter being invoked. *)

Inductive Event :=
| CallSetMaterialAlpha (matName : string) (alpha : number)
| WriteVariantName (v : string)
| WriteBaseColorFactor (index : nat) (color : RGBA)
| WriteAlphaMode (index : nat) (mode : AlphaMode)
| ConsoleWarn (message : string) (e : Js.Error).

(** ** Component state *)

Record World := {
  currentModel : string;
  variants : list string;
  variant : string;
  groups : gmap string (list string);
  groupVisibility : gmap string bool;
  materials : list string;
  materialVisibility : gmap string bool;
  originalColor : gmap string RGBA;
  mvRef : option MVElement;
  trace : list Event
}.

Definition DEFAULT_GROUPS : gmap string (list string) :=
  list_to_map [
    ("Body", ["body"; "skin"; "feather"; "coat"; "paint"]);
    ("Details", ["detail"; "metal"; "chrome"; "trim"]);
    ("Eyes", ["eye"; "pupil"; "iris"]);
    ("Beak", ["beak"; "mouth"]);
    ("Comb", ["comb"; "crest"])
  ].

(** [{ Body: true, Details: true, Eyes: true, Beak: true, Comb: true }] *)
Definition ALL_GROUPS_VISIBLE : gmap string bool :=
  list_to_map [("Body", true); ("Details", true); ("Eyes", true); ("Beak", true); ("Comb", true)].

(** The state of a freshly mounted component showing [src] in element [el]. *)
Definition initialWorld (src : string) (el : option MVElement) : World := {|
  currentModel := src;
  variants := [];
  variant := "";
  groups := DEFAULT_GROUPS;
  groupVisibility := ALL_GROUPS_VISIBLE;
  materials := [];
  materialVisibility := ∅;
  originalColor := ∅;
  mvRef := el;
  trace := []
|}.

(** State setters ([setX(f)] of React, and writes through refs). *)
Definition setCurrentModel (src : string) (w : World) : World :=
  {| currentModel := src; variants := variants w; variant := variant w;
     groups := groups w; groupVisibility := groupVisibility w;
     materials := materials w; materialVisibility := materialVisibility w;
     originalColor := originalColor w; mvRef := mvRef w; trace := trace w |}.

Definition setVariants (l : list string) (w : World) : World :=
  {| currentModel := currentModel w; variants := l; variant := variant w;
     groups := groups w; groupVisibility := groupVisibility w;
     materials := materials w; materialVisibility := materialVisibility w;
     originalColor := originalColor w; mvRef := mvRef w; trace := trace w |}.

Definition setVariant (f : string → string) (w : World) : World :=
  {| currentModel := currentModel w; variants := variants w; variant := f (variant w);
     groups := groups w; groupVisibility := groupVisibility w;
     materials := materials w; materialVisibility := materialVisibility w;
     originalColor := originalColor w; mvRef := mvRef w; trace := trace w |}.

Definition setGroupVisibility (f : gmap string bool → gmap string bool) (w : World) : World :=
  {| currentModel := currentModel w; variants := variants w; variant := variant w;
     groups := groups w; groupVisibility := f (groupVisibility w);
     materials := materials w; materialVisibility := materialVisibility w;
     originalColor := originalColor w; mvRef := mvRef w; trace := trace w |}.

Definition setMaterials (l : list string) (w : World) : World :=
  {| currentModel := currentModel w; variants := variants w; variant := variant w;
     groups := groups w; groupVisibility := groupVisibility w;
     materials := l; materialVisibility := materialVisibility w;
     originalColor := originalColor w; mvRef := mvRef w; trace := trace w |}.

Definition setMaterialVisibility (f : gmap string bool → gmap string bool) (w : World) : World :=
  {| currentModel := currentModel w; variants := variants w; variant := variant w;
     groups := groups w; groupVisibility := groupVisibility w;
     materials := materials w; materialVisibility := f (materialVisibility w);
     originalColor := originalColor w; mvRef := mvRef w; trace := trace w |}.

Definition setOriginalColor (c : gmap string RGBA) (w : World) : World :=
  {| currentModel := currentModel w; variants := variants w; variant := variant w;
     groups := groups w; groupVisibility := groupVisibility w;
     materials := materials w; materialVisibility := materialVisibility w;
     originalColor := c; mvRef := mvRef w; trace := trace w |}.

Definition setMvRef (el : option MVElement) (w : World) : World :=
  {| currentModel := currentModel w; variants := variants w; variant := variant w;
     groups := groups w; groupVisibility := groupVisibility w;
     materials := materials w; materialVisibility := materialVisibility w;
     originalColor := originalColor w; mvRef := el; trace := trace w |}.

Definition record (ev : Event) (w : World) : World :=
  {| currentModel := currentModel w; variants := variants w; variant := variant w;
     groups := groups w; groupVisibility := groupVisibility w;
     materials := materials w; materialVisibility := materialVisibility w;
     originalColor := originalColor w; mvRef := mvRef w; trace := trace w ++ [ev] |}.

(** ** Handlers: state passing with exceptions

    A handler runs on a [World] and completes normally or by a [throw]; in
    both cases the world it leaves is the one reached so far. *)

Inductive Completion (A : Type) :=
| Normal (a : A)
| Throw (e : Js.Error).
Arguments Normal {A} a.
Arguments Throw {A} e.

Definition Handler (A : Type) : Type := World → Completion A * World.

#[global] Instance Handler_ret : MRet Handler := λ A a w, (Normal a, w).

#[global] Instance Handler_bind : MBind Handler := λ A B k c w,
  match c w with
  | (Normal a, w') => k a w'
  | (Throw e, w') => (Throw e, w')
  end.

Definition getWorld : Handler World := λ w, (Normal w, w).

Definition update (f : World → World) : Handler unit := λ w, (Normal tt, f w).

Definition throw {A} (e : Js.Error) : Handler A := λ w, (Throw e, w).

(** [try { body } catch (e) { handler(e) }] *)
Definition tryCatch (body : Handler unit) (handler : Js.Error → Handler unit) : Handler unit :=
  λ w,
  match body w with
  | (Normal a, w') => (Normal a, w')
  | (Throw e, w') => handler e w'
  end.

(** [for (const x of l) { body(x) }] *)
Fixpoint forOf {A} (l : list A) (body : A → Handler unit) : Handler unit :=
  match l with
  | [] => mret tt
  | x :: rest => body x ;; forOf rest body
  end.

(** [console.warn(message, e)] *)
Definition consoleWarn (message : string) (e : Js.Error) : Handler unit :=
  update (record (ConsoleWarn message e)).

(** ** Renderer mutators *)

Definition withVariantName (v : string) (el : MVElement) : MVElement :=
  {| availableVariants := availableVariants el;
     variantName := Some v;
     model := model el |}.

(** In-place mutation of the material object at position [i] of
    [el.model.materials]. *)
Definition alterMaterial (i : nat) (f : Material → Material) (el : MVElement) : MVElement :=
  {| availableVariants := availableVariants el;
     variantName := variantName el;
     model :=
       (λ mdl, {| SceneGraph.materials := alter f i <$> SceneGraph.materials mdl |})
         <$> model el |}.

Definition withBaseColorFactor (c : RGBA) (m : Material) : Material :=
  {| SceneGraph.name := SceneGraph.name m;
     SceneGraph.pbrMetallicRoughness :=
       (λ p, {| SceneGraph.baseColorFactor := Some c;
                SceneGraph.setBaseColorFactor_callable :=
                  SceneGraph.setBaseColorFactor_callable p |})
         <$> SceneGraph.pbrMetallicRoughness m;
     SceneGraph.alphaMode := SceneGraph.alphaMode m;
     SceneGraph.setAlphaMode_callable := SceneGraph.setAlphaMode_callable m |}.

Definition withAlphaMode (mode : AlphaMode) (m : Material) : Material :=
  {| SceneGraph.name := SceneGraph.name m;
     SceneGraph.pbrMetallicRoughness := SceneGraph.pbrMetallicRoughness m;
     SceneGraph.alphaMode := mode;
     SceneGraph.setAlphaMode_callable := SceneGraph.setAlphaMode_callable m |}.

(** [el.variantName = v] *)
Definition writeVariantName (v : string) : Handler unit :=
  update (λ w, record (WriteVariantName v) (setMvRef (withVariantName v <$> mvRef w) w)).

(** [pmr.setBaseColorFactor(c)] on the material at position [i]. *)
Definition setBaseColorFactor (i : nat) (pmr : SceneGraph.PBRMetallicRoughness)
    (c : RGBA) : Handler unit :=
  if SceneGraph.setBaseColorFactor_callable pmr then
    update (λ w, record (WriteBaseColorFactor i c)
                   (setMvRef (alterMaterial i (withBaseColorFactor c) <$> mvRef w) w))
  else throw (Js.TypeError "pmr.setBaseColorFactor is not a function").

(** [m.setAlphaMode(mode)] on the material at position [i]. *)
Definition setAlphaMode (i : nat) (m : Material) (mode : AlphaMode) : Handler unit :=
  if SceneGraph.setAlphaMode_callable m then
    update (λ w, record (WriteAlphaMode i mode)
                   (setMvRef (alterMaterial i (withAlphaMode mode) <$> mvRef w) w))
  else throw (Js.TypeError "m.setAlphaMode is not a function").

(** ** The load handler *)

(** [m.pbrMetallicRoughness?.baseColorFactor ?? [1,1,1,1]]; the spread
    [[...rgba]] stores a copy, which a value already is. *)
Definition currentColor (m : Material) : RGBA :=
  match SceneGraph.pbrMetallicRoughness m with
  | Some pmr => default white (SceneGraph.baseColorFactor pmr)
  | None => white
  end.

(** [if (!cache.has(n)) cache.set(n, c)] *)
Definition cacheOnce (n : string) (c : RGBA) (cache : gmap string RGBA) : gmap string RGBA :=
  match cache !! n with
  | Some _ => cache
  | None => <[n := c]> cache
  end.

(** The [for (const m of mats)] loop of [onLoad], on its three
    accumulators: the local [names] and [vis], and the [originalColor] ref
    (a [Map], where every key is a key like any other). *)
Fixpoint collectMaterials (mats : list Material) (names : list string)
    (vis : gmap string bool) (cache : gmap string RGBA)
    : list string * gmap string bool * gmap string RGBA :=
  match mats with
  | [] => (names, vis, cache)
  | m :: rest =>
      match Js.truthy (SceneGraph.name m) with
      | None => collectMaterials rest names vis cache
      | Some n =>
          collectMaterials rest (names ++ [n]) (Js.assign n true vis)
            (cacheOnce n (currentColor m) cache)
      end
  end.

(** [a.localeCompare(b) <= 0]: the comparison function does not put [b]
    before [a]. *)
Definition notAfter `{!Js.Runtime} (a b : string) : Prop :=
  (Js.localeCompare a b ≤ 0)%Z.

#[global] Instance notAfter_dec `{!Js.Runtime} a b : Decision (notAfter a b).
Proof. unfold notAfter. apply _. Defined.

(** [names.sort((a,b) => a.localeCompare(b))]: the stable sort of the
    array by the comparison function. *)
Definition sortNames `{!Js.Runtime} (names : list string) : list string :=
  merge_sort notAfter names.

(** The names are strings and a base colour is an array of four numbers, as
    the source declares them: on such a scene graph no statement of the
    [try] block raises. *)
Definition onLoad `{!Js.Runtime} : Handler unit :=
  w ← getWorld;
  match mvRef w with
  | None => mret tt
  | Some el =>
      let list := default [] (availableVariants el) in
      update (setVariants list) ;;
      match list with
      | [] => mret tt
      | first :: _ =>
          update (setVariant (λ prev, if decide (prev = "") then first else prev)) ;;
          writeVariantName (Js.or_else (variantName el) first)
      end ;;
      tryCatch
        (w1 ← getWorld;
         let mats := materialsOf (Some el) in
         let '(names, vis, cache) := collectMaterials mats [] ∅ (originalColor w1) in
         update (setOriginalColor cache) ;;
         update (setMaterials (sortNames names)) ;;
         update (setMaterialVisibility (λ _, vis)))
        (λ e, consoleWarn "Unable to cache materials" e)
  end.

(** [useEffect(..., [variant])] *)
Definition applyVariant : Handler unit :=
  w ← getWorld;
  match mvRef w with
  | Some _ => if decide (variant w = "") then mret tt else writeVariantName (variant w)
  | None => mret tt
  end.

(** ** Material alpha and visibility *)

(** [typeof mm?.name === 'string' && mm.name.toLowerCase() === matName.toLowerCase()] *)
Definition sameNameIgnoringCase `{!Js.Runtime} (matName : string) (mm : Material) : bool :=
  match SceneGraph.name mm with
  | Some s => bool_decide (Js.toLowerCase s = Js.toLowerCase matName)
  | None => false
  end.

(** The first line marks the invocation in the trace; the rest is the
    source, statement by statement. *)
Definition setMaterialAlpha `{!Js.Runtime} (matName : string) (alpha : number) : Handler unit :=
  update (record (CallSetMaterialAlpha matName alpha)) ;;
  w ← getWorld;
  let mats := materialsOf (mvRef w) in
  match list_find (λ mm, Is_true (sameNameIgnoringCase matName mm)) mats with
  | None => mret tt
  | Some (i, m) =>
      match SceneGraph.pbrMetallicRoughness m with
      | None => mret tt
      | Some pmr =>
          let orig := default white (originalColor w !! default "" (SceneGraph.name m)) in
          setBaseColorFactor i pmr (Rgba (red orig) (green orig) (blue orig) alpha) ;;
          setAlphaMode i m (if Js.lt_one alpha then BLEND else OPAQUE)
      end
  end.

(** [patterns.some((p) => lower.includes(p.toLowerCase()))] *)
Definition matchesAny `{!Js.Runtime} (patterns : list string) (lower : string) : bool :=
  existsb (λ p, Js.includes lower (Js.toLowerCase p)) patterns.

(** [visible ? 1.0 : 0.0] *)
Definition alphaOf (visible : bool) : number := if visible then 1%float else 0%float.

(** [patterns.some(test)]: a method of arrays; on any other value the call
    raises. *)
Definition somePattern `{!Js.Runtime} (patterns : Js.Patterns) (lower : string) : Handler bool :=
  match patterns with
  | Js.PatternArray l => mret (matchesAny l lower)
  | Js.NotAnArray _ => throw (Js.TypeError "patterns.some is not a function")
  end.

Definition updateGroupVisibility `{!Js.Runtime} (groupKey : string) (visible : bool) : Handler unit :=
  update (setGroupVisibility (λ prev, <[groupKey := visible]> prev)) ;;
  w ← getWorld;
  let patterns := Js.patternsAt (groups w) groupKey in
  match mvRef w with
  | None => mret tt
  | Some el =>
      if Js.noLength patterns then mret tt
      else
        tryCatch
          (let mats := materialsOf (Some el) in
           let alpha := alphaOf visible in
           forOf mats (λ m,
             let name := default "" (SceneGraph.name m) in
             let lower := Js.toLowerCase name in
             matched ← somePattern patterns lower;
             if matched : bool then
               setMaterialAlpha name alpha ;;
               update (setMaterialVisibility (λ s, <[name := visible]> s))
             else mret tt))
          (λ e, consoleWarn ("Failed to toggle group " +:+ groupKey) e)
  end.

Definition toggleSingleMaterial `{!Js.Runtime} (name : string) (visible : bool) : Handler unit :=
  update (setMaterialVisibility (λ prev, <[name := visible]> prev)) ;;
  setMaterialAlpha name (alphaOf visible).

(** ** Model switching and the event loop *)

(** [useEffect(..., [currentModel])]: reset state so inspector and variants
    are fresh. *)
Definition resetOnModelChange : Handler unit :=
  update (setVariants []) ;;
  update (setVariant (λ _, "")) ;;
  update (setMaterials []) ;;
  update (setMaterialVisibility (λ _, ∅)) ;;
  update (setOriginalColor ∅) ;;
  update (setGroupVisibility (λ _, ALL_GROUPS_VISIBLE)).

(** The element mounted for a new [key={currentModel}]: nothing loaded yet. *)
Definition freshElement : MVElement :=
  {| availableVariants := None; variantName := None; model := None |}.

(** What the page can deliver to the component. The group checkboxes are
    commented out in the JSX, so [updateGroupVisibility] has no event. *)
Inductive UIEvent :=
| SelectModel (src : string)
| Loaded (el : MVElement)
| SelectVariant (v : string)
| ToggleMaterial (name : string) (visible : bool).

Definition handle `{!Js.Runtime} (ev : UIEvent) : Handler unit :=
  match ev with
  | SelectModel src =>
      w ← getWorld;
      if decide (src = currentModel w) then mret tt
      else
        update (setCurrentModel src) ;;
        update (setMvRef (Some freshElement)) ;;
        resetOnModelChange
  | Loaded el =>
      w ← getWorld;
      match mvRef w with
      | None => mret tt
      | Some _ => update (setMvRef (Some el)) ;; onLoad
      end
  | SelectVariant v => update (setVariant (λ _, v))
  | ToggleMaterial name visible => toggleSingleMaterial name visible
  end.

(** One event: its handler, then the [variant] effect when [variant] changed. *)
Definition step `{!Js.Runtime} (ev : UIEvent) (w : World) : Completion unit * World :=
  match handle ev w with
  | (c, w') =>
      if decide (variant w' = variant w) then (c, w')
      else (c, (applyVariant w').2)
  end.

(** A sequence of events; an uncaught exception ends its own handler only. *)
Fixpoint run `{!Js.Runtime} (evs : list UIEvent) (w : World) : World :=
  match evs with
  | [] => w
  | ev :: rest => run rest (step ev w).2
  end.

Definition isSelectModel (ev : UIEvent) : bool :=
  match ev with SelectModel _ => true | _ => false end.

(** ** Sample data *)

Module Sample.

#[local] Existing Instance Js.asciiRuntime.

Definition body_paint : Material :=
  {| SceneGraph.name := Some "Body_Paint";
     SceneGraph.pbrMetallicRoughness :=
       Some {| SceneGraph.baseColorFactor := Some (Rgba 0.75 0.25 0.5 1);
               SceneGraph.setBaseColorFactor_callable := true |};
     SceneGraph.alphaMode := OPAQUE;
     SceneGraph.setAlphaMode_callable := true |}.

Definition eye_lens : Material :=
  {| SceneGraph.name := Some "Eye_Lens";
     SceneGraph.pbrMetallicRoughness :=
       Some {| SceneGraph.baseColorFactor := None;
               SceneGraph.setBaseColorFactor_callable := true |};
     SceneGraph.alphaMode := OPAQUE;
     SceneGraph.setAlphaMode_callable := true |}.

Definition element (mats : list Material) (vs : list string) : MVElement :=
  {| availableVariants := Some vs;
     variantName := None;
     model := Some {| SceneGraph.materials := Some mats |} |}.

(** A material without a [pbrMetallicRoughness] handle. *)
Definition decal : Material :=
  {| SceneGraph.name := Some "Decal";
     SceneGraph.pbrMetallicRoughness := None;
     SceneGraph.alphaMode := MASK;
     SceneGraph.setAlphaMode_callable := true |}.

(** A material without a name. *)
Definition anonymous : Material :=
  {| SceneGraph.name := None;
     SceneGraph.pbrMetallicRoughness :=
       Some {| SceneGraph.baseColorFactor := Some (Rgba 0.5 0.5 0.5 1);
               SceneGraph.setBaseColorFactor_callable := true |};
     SceneGraph.alphaMode := OPAQUE;
     SceneGraph.setAlphaMode_callable := true |}.

(** A material whose name is the empty string. *)
Definition nameless : Material :=
  {| SceneGraph.name := Some "";
     SceneGraph.pbrMetallicRoughness :=
       Some {| SceneGraph.baseColorFactor := Some (Rgba 0.5 0.5 0.5 1);
               SceneGraph.setBaseColorFactor_callable := true |};
     SceneGraph.alphaMode := OPAQUE;
     SceneGraph.setAlphaMode_callable := true |}.

(** A material of a renderer that has no [setAlphaMode]. *)
Definition body_skin : Material :=
  {| SceneGraph.name := Some "Body_Skin";
     SceneGraph.pbrMetallicRoughness :=
       Some {| SceneGraph.baseColorFactor := Some (Rgba 0.25 0.5 0.75 1);
               SceneGraph.setBaseColorFactor_callable := true |};
     SceneGraph.alphaMode := OPAQUE;
     SceneGraph.setAlphaMode_callable := false |}.

(** A translucent material of such a renderer. *)
Definition glass : Material :=
  {| SceneGraph.name := Some "Glass";
     SceneGraph.pbrMetallicRoughness :=
       Some {| SceneGraph.baseColorFactor := Some (Rgba 0.5 0.75 1 0.5);
               SceneGraph.setBaseColorFactor_callable := true |};
     SceneGraph.alphaMode := BLEND;
     SceneGraph.setAlphaMode_callable := false |}.

(** A material that an artist named after the accessor of
    [Object.prototype]. *)
Definition proto : Material :=
  {| SceneGraph.name := Some "__proto__";
     SceneGraph.pbrMetallicRoughness :=
       Some {| SceneGraph.baseColorFactor := Some (Rgba 0.25 0.25 0.25 1);
               SceneGraph.setBaseColorFactor_callable := true |};
     SceneGraph.alphaMode := OPAQUE;
     SceneGraph.setAlphaMode_callable := true |}.

Definition chicken : MVElement := element [body_paint; eye_lens] [].

(** The same asset as the renderer exposes it while [Body_Paint] is hidden. *)
Definition chicken_hidden : MVElement :=
  element
    [withAlphaMode BLEND (withBaseColorFactor (Rgba 0.75 0.25 0.5 0) body_paint);
     eye_lens] [].

Definition mounted : World := initialWorld "/models/test1.glb" (Some chicken).

Definition loaded : World := (onLoad mounted).2.

(** The loaded component after [Body_Paint] was hidden in the inspector. *)
Definition hidden : World := (toggleSingleMaterial "Body_Paint" false loaded).2.

(** A component configured with one more group, whose only pattern is
    empty, on an asset with an unnamed material. *)
Definition catch_all : World := {|
  currentModel := "/models/test1.glb";
  variants := [];
  variant := "";
  groups := <["All" := [""]]> DEFAULT_GROUPS;
  groupVisibility := ALL_GROUPS_VISIBLE;
  materials := [];
  materialVisibility := ∅;
  originalColor := ∅;
  mvRef := Some (element [anonymous; eye_lens] []);
  trace := []
|}.

(** The same component on a renderer whose first material cannot switch
    its blend mode. *)
Definition fragile : World :=
  (onLoad (initialWorld "/models/test1.glb"
             (Some (element [body_skin; body_paint] [])))).2.

(** A translucent material of a renderer that has no [setBaseColorFactor]. *)
Definition chrome_trim : Material :=
  {| SceneGraph.name := Some "Chrome_Trim";
     SceneGraph.pbrMetallicRoughness :=
       Some {| SceneGraph.baseColorFactor := Some (Rgba 0.5 0.5 0.5 0.5);
               SceneGraph.setBaseColorFactor_callable := false |};
     SceneGraph.alphaMode := OPAQUE;
     SceneGraph.setAlphaMode_callable := true |}.

(** A translucent material whose name is that of [body_paint] in capitals. *)
Definition body_paint_capitals : Material :=
  {| SceneGraph.name := Some "BODY_PAINT";
     SceneGraph.pbrMetallicRoughness :=
       Some {| SceneGraph.baseColorFactor := Some (Rgba 0.5 0.75 1 0.5);
               SceneGraph.setBaseColorFactor_callable := true |};
     SceneGraph.alphaMode := BLEND;
     SceneGraph.setAlphaMode_callable := true |}.



End Sample.

(** * Vocabulary of the properties *)

(** A material carries the name [n] when its [name] is the non-empty string
    [n] (the test [if (!m?.name) continue] of the load handler). *)
Definition named (m : Material) (n : string) : Prop :=
  Js.truthy (SceneGraph.name m) = Some n.

#[global] Instance named_dec m n : Decision (named m n).
Proof. unfold named. apply _. Defined.

(** The predicate of [mats.find(...)] in [setMaterialAlpha]. *)
Definition located `{!Js.Runtime} (matName : string) (w : World) : option (nat * Material) :=
  list_find (λ mm, Is_true (sameNameIgnoringCase matName mm)) (materialsOf (mvRef w)).

(** The world after both mutators went through on the material at [i]. *)
Definition painted (i : nat) (c : RGBA) (mode : AlphaMode) (w : World) : World :=
  let w1 := record (WriteBaseColorFactor i c)
              (setMvRef (alterMaterial i (withBaseColorFactor c) <$> mvRef w) w) in
  record (WriteAlphaMode i mode)
    (setMvRef (alterMaterial i (withAlphaMode mode) <$> mvRef w1) w1).

(** The colour [setMaterialAlpha] builds for a material: the cached RGB
    (opaque white when the name has no entry) with the given alpha. *)
Definition restoredColor (w : World) (m : Material) (alpha : number) : RGBA :=
  let orig := default white (originalColor w !! default "" (SceneGraph.name m)) in
  Rgba (red orig) (green orig) (blue orig) alpha.

Definition blendModeFor (alpha : number) : AlphaMode :=
  if Js.lt_one alpha then BLEND else OPAQUE.

(** [m?.name ?? ''] *)
Definition nameOf (m : Material) : string := default "" (SceneGraph.name m).

(** The test of the loop of [updateGroupVisibility]. *)
Definition inGroup `{!Js.Runtime} (patterns : list string) (m : Material) : bool :=
  matchesAny patterns (Js.toLowerCase (nameOf m)).

Definition matching `{!Js.Runtime} (patterns : list string) (mats : list Material) : list Material :=
  filter (λ m, Is_true (inGroup patterns m)) mats.

(** The body of the [try] block of [updateGroupVisibility] when [patterns]
    is an array. *)
Definition toggleMatching `{!Js.Runtime} (patterns : list string) (visible : bool)
    (mats : list Material) : Handler unit :=
  forOf mats (λ m,
    let name := default "" (SceneGraph.name m) in
    let lower := Js.toLowerCase name in
    if matchesAny patterns lower then
      setMaterialAlpha name (alphaOf visible) ;;
      update (setMaterialVisibility (λ s, <[name := visible]> s))
    else mret tt).

(** Both duck-typed mutators of a material can be called. *)
Definition mutatorsCallable (m : Material) : Prop :=
  SceneGraph.setAlphaMode_callable m = true ∧
  ∀ pmr, SceneGraph.pbrMetallicRoughness m = Some pmr →
         SceneGraph.setBaseColorFactor_callable pmr = true.

(** Whether a call of the alpha setter with this name raises: the material
    it finds has a handle, and one of the two mutators cannot be called. *)
Definition raises `{!Js.Runtime} (matName : string) (w : World) : bool :=
  match located matName w with
  | Some (_, m) =>
      match SceneGraph.pbrMetallicRoughness m with
      | Some pmr =>
          negb (SceneGraph.setBaseColorFactor_callable pmr &&
                SceneGraph.setAlphaMode_callable m)
      | None => false
      end
  | None => false
  end.

(** [groups[groupKey]] finds no array but a function of [Object.prototype]
    that takes arguments, and there is a material to look at: the loop of
    [updateGroupVisibility] raises at [patterns.some]. *)
Definition strays (groupKey : string) (w : World) : bool :=
  match Js.patternsAt (groups w) groupKey with
  | Js.PatternArray _ => false
  | Js.NotAnArray _ as patterns =>
      negb (Js.noLength patterns) && bool_decide (materialsOf (mvRef w) ≠ [])
  end.

(** Of the materials a loop is to visit, those it gets to: all up to and
    including the first on which the setter raises; and those it is done
    with, strictly before that one. *)
Fixpoint visited (fails : Material → bool) (ms : list Material) : list Material :=
  match ms with
  | [] => []
  | m :: rest => if fails m then [m] else m :: visited fails rest
  end.

Fixpoint completed (fails : Material → bool) (ms : list Material) : list Material :=
  match ms with
  | [] => []
  | m :: rest => if fails m then [] else m :: completed fails rest
  end.


(** The invocations of the alpha setter in a trace, in order. *)
Definition alphaCalls (tr : list Event) : list (string * number) :=
  omap (λ ev, match ev with
              | CallSetMaterialAlpha n a => Some (n, a)
              | _ => None
              end) tr.

(** The warnings in a trace, in order. *)
Definition warnings (tr : list Event) : list (string * Js.Error) :=
  omap (λ ev, match ev with
              | ConsoleWarn msg e => Some (msg, e)
              | _ => None
              end) tr.

(** * The third copy: group checkboxes only

    The copy of the component that shows one car model. Its state has
    no material list and no material flags; [setMaterialAlpha] and the
    [variant] effect are the same code as above. *)

Module CarDemo.

Definition DEFAULT_GROUPS : gmap string (list string) :=
  list_to_map [
    ("Body", ["body"; "paint"; "carpaint"]);
    ("Details", ["rim"; "trim"; "metal"; "chrome"]);
    ("Glass", ["glass"; "window"; "windscreen"]);
    ("Tires", ["tire"; "rubber"])
  ].

(** [{ Body: true, Details: true, Glass: true, Tires: true }] *)
Definition ALL_GROUPS_VISIBLE : gmap string bool :=
  list_to_map [("Body", true); ("Details", true); ("Glass", true); ("Tires", true)].

(** The state of the freshly mounted copy. It has no model selector, no
    material list and no material flags: [currentModel] is its constant
    [MODEL_URL] and the other two fields stay empty. *)
Definition initialWorld (el : option MVElement) : World := {|
  currentModel := "/models/test6-car.glb";
  variants := [];
  variant := "";
  groups := DEFAULT_GROUPS;
  groupVisibility := ALL_GROUPS_VISIBLE;
  materials := [];
  materialVisibility := ∅;
  originalColor := ∅;
  mvRef := el;
  trace := []
|}.

(** The loop of its load handler:
    [if (m?.name && !originalColor.current.has(m.name)) originalColor.current.set(...)] *)
Fixpoint cacheColors (mats : list Material) (cache : gmap string RGBA)
    : gmap string RGBA :=
  match mats with
  | [] => cache
  | m :: rest =>
      match Js.truthy (SceneGraph.name m) with
      | Some n => cacheColors rest (cacheOnce n (currentColor m) cache)
      | None => cacheColors rest cache
      end
  end.

Definition onLoad : Handler unit :=
  w ← getWorld;
  match mvRef w with
  | None => mret tt
  | Some el =>
      let list := default [] (availableVariants el) in
      update (setVariants list) ;;
      match list with
      | [] => mret tt
      | first :: _ =>
          update (setVariant (λ prev, if decide (prev = "") then first else prev)) ;;
          writeVariantName (Js.or_else (variantName el) first)
      end ;;
      tryCatch
        (w1 ← getWorld;
         let mats := materialsOf (Some el) in
         update (setOriginalColor (cacheColors mats (originalColor w1))))
        (λ e, consoleWarn "Unable to cache original material colors" e)
  end.

Definition updateGroupVisibility `{!Js.Runtime} (groupKey : string) (visible : bool) : Handler unit :=
  update (setGroupVisibility (λ prev, <[groupKey := visible]> prev)) ;;
  w ← getWorld;
  let patterns := Js.patternsAt (groups w) groupKey in
  match mvRef w with
  | None => mret tt
  | Some el =>
      if Js.noLength patterns then mret tt
      else
        tryCatch
          (let mats := materialsOf (Some el) in
           let alpha := alphaOf visible in
           forOf mats (λ m,
             let name := default "" (SceneGraph.name m) in
             let lower := Js.toLowerCase name in
             matched ← somePattern patterns lower;
             if matched : bool then setMaterialAlpha name alpha
             else mret tt))
          (λ e, consoleWarn ("Failed to toggle group " +:+ groupKey) e)
  end.

(** [const onChangeGroup = (k) => (e) => updateGroupVisibility(k, e.target.checked)] *)
Definition onChangeGroup `{!Js.Runtime} (k : string) (checked : bool) : Handler unit :=
  updateGroupVisibility k checked.

(** [checked={!!groupVisibility[k]}] for [Object.keys(groups).map(...)] *)
Definition groupChecked (w : World) (k : string) : bool :=
  Js.truthyAt (groupVisibility w) k.

End CarDemo.

(** The body of the [try] block of [CarDemo.updateGroupVisibility] when
    [patterns] is an array. *)
Definition carLoop `{!Js.Runtime} (patterns : list string) (visible : bool)
    (mats : list Material) : Handler unit :=
  forOf mats (λ m,
    let name := default "" (SceneGraph.name m) in
    let lower := Js.toLowerCase name in
    if matchesAny patterns lower then setMaterialAlpha name (alphaOf visible)
    else mret tt).

(** * What the page shows *)

(** [variants.length > 0 && <select value={variant}>...] *)
Definition variantSelectorShown (w : World) : bool :=
  match variants w with [] => false | _ :: _ => true end.

(** [materials.length > 0 && <details>...] *)
Definition inspectorShown (w : World) : bool :=
  match materials w with [] => false | _ :: _ => true end.

(** [materials.map((name) => <input type="checkbox" checked={!!materialVisibility[name]} />)]:
    the rows of the inspector, each with its name and whether it is checked. *)
Definition inspectorRows (w : World) : list (string * bool) :=
  (λ name, (name, Js.truthyAt (materialVisibility w) name)) <$> materials w.

(** Every row of the inspector has a colour to restore, and a flag of its
    own unless its name is [__proto__]. *)
Definition inspectorConsistent (w : World) : Prop :=
  ∀ n, n ∈ materials w →
       is_Some (originalColor w !! n) ∧
       (n ≠ "__proto__" → is_Some (materialVisibility w !! n)).

(** The names the load handler keeps, in the order of the asset. *)
Definition namesOf (mats : list Material) : list string :=
  omap (λ m, Js.truthy (SceneGraph.name m)) mats.

(** The world after [pmr.setBaseColorFactor] went through and
    [m.setAlphaMode] raised. *)
Definition recoloured (i : nat) (c : RGBA) (w : World) : World :=
  record (WriteBaseColorFactor i c)
    (setMvRef (alterMaterial i (withBaseColorFactor c) <$> mvRef w) w).

(** * Proof automation *)

(** Unfolding of the monad operations of [Handler]. *)
Ltac run_handler :=
  unfold mbind, Handler_bind, mret, Handler_ret, getWorld, update, throw,
    tryCatch, consoleWarn, writeVariantName; simpl.

Ltac run_setMaterialAlpha :=
  unfold setMaterialAlpha; run_handler;
  destruct (list_find _ _) as [[? ?]|]; simpl; [|done];
  destruct (SceneGraph.pbrMetallicRoughness _) as [?|]; simpl; [|done];
  unfold setBaseColorFactor, setAlphaMode; run_handler;
  destruct (SceneGraph.setBaseColorFactor_callable _); simpl; [|done];
  destruct (SceneGraph.setAlphaMode_callable _); simpl; done.


(** * Properties *)

Section properties.

Context {runtime : Js.Runtime}.

(** ** The load handler *)

Section collectMaterials.

Implicit Types (mats : list Material) (names : list string)
  (vis : gmap string bool) (cache : gmap string RGBA).

Lemma cacheOnce_keeps n c cache k v :
  cache !! k = Some v → cacheOnce n c cache !! k = Some v.
Proof.
  intros Hk. unfold cacheOnce. destruct (cache !! n) eqn:Hn; [done|].
  rewrite lookup_insert_ne; [done|]. intros ->. congruence.
Qed.

Lemma cacheOnce_other n c cache k :
  k ≠ n → cacheOnce n c cache !! k = cache !! k.
Proof.
  intros Hk. unfold cacheOnce. destruct (cache !! n); [done|].
  by rewrite lookup_insert_ne.
Qed.

Lemma cacheOnce_fresh n c cache :
  cache !! n = None → cacheOnce n c cache !! n = Some c.
Proof. intros Hn. unfold cacheOnce. rewrite Hn. apply lookup_insert_eq. Qed.

(** An existing cache entry survives the loop. *)
Lemma collect_cache_keeps mats names vis cache k v :
  cache !! k = Some v →
  (collectMaterials mats names vis cache).2 !! k = Some v.
Proof.
  revert names vis cache.
  induction mats as [|m mats IH]; intros names vis cache Hk; simpl; [done|].
  destruct (Js.truthy (SceneGraph.name m)) as [n|]; [|by apply IH].
  apply IH. by apply cacheOnce_keeps.
Qed.

(** A name with no entry gets the current colour of the first material
    that carries it. *)
Lemma collect_cache_first mats names vis cache n i m0 :
  cache !! n = None →
  list_find (λ m, named m n) mats = Some (i, m0) →
  (collectMaterials mats names vis cache).2 !! n = Some (currentColor m0).
Proof.
  revert names vis cache i.
  induction mats as [|m mats IH]; intros names vis cache i Hn Hfind; [done|].
  simpl in *. case_decide as Hm.
  - simplify_eq. unfold named in Hm. rewrite Hm.
    apply collect_cache_keeps. by apply cacheOnce_fresh.
  - destruct (list_find _ mats) as [[j m1]|] eqn:Hrest; simplify_eq/=.
    unfold named in Hm.
    destruct (Js.truthy (SceneGraph.name m)) as [n'|] eqn:Hn'.
    + eapply IH; [|done]. rewrite cacheOnce_other; [done|congruence].
    + by eapply IH.
Qed.

(** A name without a carrier keeps its (missing or present) entry. *)
Lemma collect_cache_absent mats names vis cache n :
  list_find (λ m, named m n) mats = None →
  (collectMaterials mats names vis cache).2 !! n = cache !! n.
Proof.
  revert names vis cache.
  induction mats as [|m mats IH]; intros names vis cache Hfind; [done|].
  simpl in *. case_decide as Hm; [done|].
  destruct (list_find _ mats) as [[j m1]|] eqn:Hrest; simplify_eq/=.
  unfold named in Hm.
  destruct (Js.truthy (SceneGraph.name m)) as [n'|] eqn:Hn'.
  - rewrite IH by done. apply cacheOnce_other. congruence.
  - by apply IH.
Qed.

Lemma assign_lookup_eq n v obj :
  n ≠ "__proto__" → Js.assign n v obj !! n = Some v.
Proof. intros Hn. unfold Js.assign. rewrite decide_False by done. apply lookup_insert_eq. Qed.

Lemma assign_lookup_ne n v obj k :
  n ≠ k → Js.assign n v obj !! k = obj !! k.
Proof. intros Hn. unfold Js.assign. case_decide; [done|]. by rewrite lookup_insert_ne. Qed.

(** No assignment creates an own property [__proto__]. *)
Lemma assign_lookup_proto n v obj :
  Js.assign n v obj !! "__proto__" = obj !! "__proto__".
Proof. unfold Js.assign. case_decide; [done|]. by rewrite lookup_insert_ne. Qed.

Lemma assign_lookup_keeps n v obj k :
  obj !! k = Some v → Js.assign n v obj !! k = Some v.
Proof.
  intros Hk. unfold Js.assign. case_decide; [done|].
  destruct (decide (n = k)) as [->|]; [apply lookup_insert_eq|by rewrite lookup_insert_ne].
Qed.

Lemma collect_vis_keeps mats names vis cache k :
  vis !! k = Some true →
  (collectMaterials mats names vis cache).1.2 !! k = Some true.
Proof.
  revert names vis cache.
  induction mats as [|m mats IH]; intros names vis cache Hk; simpl; [done|].
  destruct (Js.truthy (SceneGraph.name m)) as [n|]; [|by apply IH].
  apply IH. by apply assign_lookup_keeps.
Qed.

(** The loop gives the flags no own property [__proto__]. *)
Lemma collect_vis_proto mats names vis cache :
  (collectMaterials mats names vis cache).1.2 !! "__proto__" = vis !! "__proto__".
Proof.
  revert names vis cache.
  induction mats as [|m mats IH]; intros names vis cache; simpl; [done|].
  destruct (Js.truthy (SceneGraph.name m)) as [n|]; [|by apply IH].
  rewrite IH. apply assign_lookup_proto.
Qed.

(** Every named material ends with a flag, and the flag is [true], unless
    the name is [__proto__]. *)
Lemma collect_vis_named mats names vis cache m n :
  m ∈ mats → named m n → n ≠ "__proto__" →
  (collectMaterials mats names vis cache).1.2 !! n = Some true.
Proof.
  revert names vis cache.
  induction mats as [|m' mats IH]; intros names vis cache Hin Hn Hproto.
  - by apply elem_of_nil in Hin.
  - apply elem_of_cons in Hin as [<-|Hin]; simpl.
    + unfold named in Hn. rewrite Hn.
      by apply collect_vis_keeps, assign_lookup_eq.
    + destruct (Js.truthy (SceneGraph.name m')); by eapply IH.
Qed.

(** The flags of the loop are those of the collected names only. *)
Lemma collect_vis_only mats names vis cache k :
  is_Some ((collectMaterials mats names vis cache).1.2 !! k) →
  is_Some (vis !! k) ∨ ∃ m, m ∈ mats ∧ named m k.
Proof.
  revert names vis cache.
  induction mats as [|m mats IH]; intros names vis cache Hk; simpl in *; [by left|].
  destruct (Js.truthy (SceneGraph.name m)) as [n|] eqn:Hn.
  - apply IH in Hk as [Hk|(m'&?&?)].
    + destruct (decide (n = k)) as [->|].
      * right. exists m. split; [apply elem_of_cons; by left|done].
      * rewrite assign_lookup_ne in Hk by done. by left.
    + right. exists m'. split; [apply elem_of_cons; by right|done].
  - apply IH in Hk as [Hk|(m'&?&?)]; [by left|].
    right. exists m'. split; [apply elem_of_cons; by right|done].
Qed.

End collectMaterials.

(** What a load notification leaves behind, field by field. *)
Lemma onLoad_effect w el :
  mvRef w = Some el →
  let acc := collectMaterials (materialsOf (Some el)) [] ∅ (originalColor w) in
  let w' := (onLoad w).2 in
  (onLoad w).1 = Normal tt ∧
  materials w' = sortNames acc.1.1 ∧
  materialVisibility w' = acc.1.2 ∧
  originalColor w' = acc.2 ∧
  variants w' = default [] (availableVariants el) ∧
  groups w' = groups w ∧
  groupVisibility w' = groupVisibility w ∧
  currentModel w' = currentModel w ∧
  materialsOf (mvRef w') = materialsOf (mvRef w).
Proof.
  intros Hel. unfold onLoad. run_handler. rewrite Hel. simpl.
  destruct (default [] (availableVariants el)) as [|first rest] eqn:Hlist; simpl.
  all: destruct (collectMaterials _ _ _ _) as [[names vis] cache] eqn:Hacc; simpl.
  all: rewrite ?Hel; simpl; done.
Qed.

(** ** The alpha setter: what it never touches *)

(** The setter leaves the React state and the colour cache alone. *)
Lemma setMaterialAlpha_frame matName alpha w :
  let w' := (setMaterialAlpha matName alpha w).2 in
  originalColor w' = originalColor w ∧
  materialVisibility w' = materialVisibility w ∧
  groupVisibility w' = groupVisibility w ∧
  groups w' = groups w ∧
  materials w' = materials w ∧
  variants w' = variants w ∧
  variant w' = variant w ∧
  currentModel w' = currentModel w.
Proof. run_setMaterialAlpha. Qed.

Lemma applyVariant_frame w :
  let w' := (applyVariant w).2 in
  originalColor w' = originalColor w ∧
  materialVisibility w' = materialVisibility w ∧
  groupVisibility w' = groupVisibility w ∧
  materials w' = materials w ∧
  variants w' = variants w ∧
  variant w' = variant w.
Proof.
  unfold applyVariant. run_handler.
  destruct (mvRef w); [|done]. by case_decide.
Qed.

(** Until the model is switched, an entry of the colour cache stays as it
    is, whatever the page delivers. *)
Lemma step_cache_keeps ev w n c :
  isSelectModel ev = false →
  originalColor w !! n = Some c →
  originalColor (step ev w).2 !! n = Some c.
Proof.
  intros Hev Hn. unfold step.
  assert (originalColor (handle ev w).2 !! n = Some c) as Hh.
  { destruct ev as [src|el|v|name visible]; simpl in *; [done|..].
    - run_handler. destruct (mvRef w) as [el0|] eqn:Hel; simpl; [|done].
      pose proof (onLoad_effect (setMvRef (Some el) w) el eq_refl) as (_&_&_&->&_).
      simpl. by apply collect_cache_keeps.
    - by run_handler.
    - unfold toggleSingleMaterial. run_handler.
      pose proof (setMaterialAlpha_frame name (alphaOf visible)
        (setMaterialVisibility (λ prev, <[name:=visible]> prev) w)) as (->&_).
      done. }
  destruct (handle ev w) as [r w1]. simpl in *. case_decide; simpl; [done|].
  by pose proof (applyVariant_frame w1) as (->&_).
Qed.

Lemma run_cache_keeps evs w n c :
  forallb (λ ev, negb (isSelectModel ev)) evs = true →
  originalColor w !! n = Some c →
  originalColor (run evs w) !! n = Some c.
Proof.
  revert w. induction evs as [|ev evs IH]; intros w Hevs Hn; simpl in *; [done|].
  apply andb_prop in Hevs as [Hev Hevs]. apply negb_true_iff in Hev.
  apply IH; [done|]. by apply step_cache_keeps.
Qed.

(** C1, as the code has it. After a load notification, every material of
    the loaded asset whose name is a non-empty string has its name in the
    colour cache, with the entry it already had or, when it had none, the
    current base colour of the first material carrying the name, opaque
    white when that material exposes no base colour; until the model is
    switched the entry stays what it is, whatever later load notifications
    bring. Unless the name is [__proto__], the material also has a
    visibility flag, set to [true]; only names of such materials have a
    flag, and [__proto__] has none. *)
Theorem onLoad_registers_materials w el m n :
  mvRef w = Some el →
  m ∈ materialsOf (Some el) →
  named m n →
  let w' := (onLoad w).2 in
  (onLoad w).1 = Normal tt ∧
  (n ≠ "__proto__" → materialVisibility w' !! n = Some true) ∧
  materialVisibility w' !! "__proto__" = None ∧
  (∀ k, is_Some (materialVisibility w' !! k) →
        ∃ m', m' ∈ materialsOf (Some el) ∧ named m' k) ∧
  (∀ c, originalColor w !! n = Some c → originalColor w' !! n = Some c) ∧
  (originalColor w !! n = None →
     ∃ i m0, list_find (λ m', named m' n) (materialsOf (Some el)) = Some (i, m0) ∧
       originalColor w' !! n = Some (currentColor m0) ∧
       (SceneGraph.pbrMetallicRoughness m0 ≫= SceneGraph.baseColorFactor = None →
          currentColor m0 = white)) ∧
  (∀ evs, forallb (λ ev, negb (isSelectModel ev)) evs = true →
     originalColor (run evs w') !! n = originalColor w' !! n).
Proof.
  intros Hel Hin Hn w'.
  pose proof (onLoad_effect w el Hel) as (Hres & _ & Hvis & Hcache & _).
  fold w' in Hvis, Hcache.
  assert (∀ c, originalColor w !! n = Some c → originalColor w' !! n = Some c) as Hkeep.
  { intros c Hc. rewrite Hcache. by apply collect_cache_keeps. }
  assert (originalColor w !! n = None →
     ∃ i m0, list_find (λ m', named m' n) (materialsOf (Some el)) = Some (i, m0) ∧
       originalColor w' !! n = Some (currentColor m0) ∧
       (SceneGraph.pbrMetallicRoughness m0 ≫= SceneGraph.baseColorFactor = None →
          currentColor m0 = white)) as Hfresh.
  { intros Hnone.
    destruct (list_find_elem_of (λ m', named m' n) _ m Hin Hn) as [[i m0] Hfind].
    exists i, m0. split; [done|]. split.
    - rewrite Hcache. by eapply collect_cache_first.
    - unfold currentColor.
      destruct (SceneGraph.pbrMetallicRoughness m0) as [pmr|]; simpl; [|done].
      by intros ->. }
  split_and!; [done| | | |done|done|].
  - intros Hproto. rewrite Hvis. by eapply collect_vis_named.
  - rewrite Hvis. by rewrite collect_vis_proto.
  - intros k Hk. rewrite Hvis in Hk.
    apply collect_vis_only in Hk as [Hk|?]; [|done].
    rewrite lookup_empty in Hk. by destruct Hk.
  - intros evs Hevs.
    destruct (originalColor w' !! n) as [c|] eqn:Hc.
    + by apply run_cache_keeps.
    + destruct (originalColor w !! n) as [c0|] eqn:Hc0.
      * specialize (Hkeep _ eq_refl). congruence.
      * destruct (Hfresh eq_refl) as (?&?&_&?&_). congruence.
Qed.

(** ** The alpha setter: what it does *)

Lemma sameNameIgnoringCase_name matName m m' :
  SceneGraph.name m' = SceneGraph.name m →
  sameNameIgnoringCase matName m' = sameNameIgnoringCase matName m.
Proof. unfold sameNameIgnoringCase. by intros ->. Qed.

Lemma sameNameIgnoringCase_Some matName m :
  sameNameIgnoringCase matName m →
  ∃ s, SceneGraph.name m = Some s ∧ Js.toLowerCase s = Js.toLowerCase matName.
Proof.
  unfold sameNameIgnoringCase. destruct (SceneGraph.name m) as [s|]; [|done].
  intros Hs%bool_decide_unpack. by exists s.
Qed.

(** [find] returns the same position after an in-place update that keeps
    what the predicate looks at. *)
Lemma list_find_alter_stable {A} (P : A → Prop) `{!∀ x, Decision (P x)}
    (f : A → A) (l : list A) i x :
  (∀ y, P (f y) ↔ P y) →
  list_find P l = Some (i, x) →
  list_find P (alter f i l) = Some (i, f x).
Proof.
  intros Hf (Hi & HP & Hleast)%list_find_Some. apply list_find_Some.
  split_and!.
  - by rewrite list_lookup_alter_eq, Hi.
  - by apply Hf.
  - intros j y Hj Hlt. rewrite list_lookup_alter_ne in Hj by lia. by eapply Hleast.
Qed.

Lemma materialsOf_alterMaterial i f o :
  materialsOf (alterMaterial i f <$> o) = alter f i (materialsOf o).
Proof.
  destruct o as [[vs vn [[[mats|]]|]]|]; simpl; try done.
Qed.

Lemma materialsOf_painted i c mode w :
  materialsOf (mvRef (painted i c mode w)) =
  alter (withAlphaMode mode ∘ withBaseColorFactor c) i (materialsOf (mvRef w)).
Proof.
  unfold painted. simpl. rewrite !materialsOf_alterMaterial.
  apply list_alter_alter_eq.
Qed.

(** No material with that name: only the call is observed. *)
Lemma setMaterialAlpha_not_located matName alpha w :
  located matName w = None →
  setMaterialAlpha matName alpha w =
  (Normal tt, record (CallSetMaterialAlpha matName alpha) w).
Proof.
  unfold located, setMaterialAlpha. run_handler. by intros ->.
Qed.

(** A material without [pbrMetallicRoughness]: only the call is observed. *)
Lemma setMaterialAlpha_no_pbr matName alpha w i m :
  located matName w = Some (i, m) →
  SceneGraph.pbrMetallicRoughness m = None →
  setMaterialAlpha matName alpha w =
  (Normal tt, record (CallSetMaterialAlpha matName alpha) w).
Proof.
  unfold located, setMaterialAlpha. run_handler. intros -> Hpmr. simpl.
  by rewrite Hpmr.
Qed.

(** Both mutators go through. *)
Lemma setMaterialAlpha_painted matName alpha w i m pmr :
  located matName w = Some (i, m) →
  SceneGraph.pbrMetallicRoughness m = Some pmr →
  SceneGraph.setBaseColorFactor_callable pmr = true →
  SceneGraph.setAlphaMode_callable m = true →
  setMaterialAlpha matName alpha w =
  (Normal tt,
   painted i (restoredColor w m alpha) (blendModeFor alpha)
     (record (CallSetMaterialAlpha matName alpha) w)).
Proof.
  unfold located, setMaterialAlpha. run_handler. intros -> Hpmr Hbcf Ham. simpl.
  rewrite Hpmr. unfold setBaseColorFactor, setAlphaMode. rewrite Hbcf, Ham.
  by run_handler.
Qed.

(** C5. When no material of the current asset has a name equal to the given
    one up to case, [setMaterialAlpha] returns normally and changes nothing:
    the element, its materials and the component state are as before (only
    the call itself is observed). *)
Theorem setMaterialAlpha_unknown_name w matName alpha :
  (∀ m s, m ∈ materialsOf (mvRef w) → SceneGraph.name m = Some s →
          Js.toLowerCase s ≠ Js.toLowerCase matName) →
  let w' := (setMaterialAlpha matName alpha w).2 in
  (setMaterialAlpha matName alpha w).1 = Normal tt ∧
  w' = record (CallSetMaterialAlpha matName alpha) w ∧
  mvRef w' = mvRef w ∧
  materialsOf (mvRef w') = materialsOf (mvRef w) ∧
  trace w' = trace w ++ [CallSetMaterialAlpha matName alpha].
Proof.
  intros Hnone.
  assert (located matName w = None) as Hloc.
  { apply list_find_None, Forall_forall. intros m Hm Hsame.
    apply sameNameIgnoringCase_Some in Hsame as (s & Hs & Heq).
    by eapply Hnone. }
  by rewrite (setMaterialAlpha_not_located _ _ _ Hloc).
Qed.

(** C9. When the material found for the name exposes no
    [pbrMetallicRoughness], [setMaterialAlpha] returns normally and writes
    neither a base colour nor a blend mode: the element and the component
    state are as before (only the call itself is observed). *)
Theorem setMaterialAlpha_without_pbr w matName alpha i m :
  located matName w = Some (i, m) →
  SceneGraph.pbrMetallicRoughness m = None →
  let w' := (setMaterialAlpha matName alpha w).2 in
  (setMaterialAlpha matName alpha w).1 = Normal tt ∧
  w' = record (CallSetMaterialAlpha matName alpha) w ∧
  mvRef w' = mvRef w ∧
  materialsOf (mvRef w') = materialsOf (mvRef w) ∧
  trace w' = trace w ++ [CallSetMaterialAlpha matName alpha].
Proof.
  intros Hloc Hpmr.
  by rewrite (setMaterialAlpha_no_pbr _ _ _ _ _ Hloc Hpmr).
Qed.

(** C6, as the code has it. When the material found for the name exposes a
    [pbrMetallicRoughness] handle and both mutators go through,
    [setMaterialAlpha] returns normally and the material's blend mode is
    then [BLEND] exactly when [alpha < 1], and [OPAQUE] otherwise. *)
Theorem setMaterialAlpha_blend_mode w matName alpha i m pmr :
  located matName w = Some (i, m) →
  SceneGraph.pbrMetallicRoughness m = Some pmr →
  SceneGraph.setBaseColorFactor_callable pmr = true →
  SceneGraph.setAlphaMode_callable m = true →
  let w' := (setMaterialAlpha matName alpha w).2 in
  (setMaterialAlpha matName alpha w).1 = Normal tt ∧
  ∃ m', materialsOf (mvRef w') !! i = Some m' ∧
        SceneGraph.name m' = SceneGraph.name m ∧
        (SceneGraph.alphaMode m' = BLEND ↔ Js.lt_one alpha = true) ∧
        (SceneGraph.alphaMode m' = OPAQUE ↔ Js.lt_one alpha = false).
Proof.
  intros Hloc Hpmr Hbcf Ham.
  rewrite (setMaterialAlpha_painted _ alpha _ _ _ _ Hloc Hpmr Hbcf Ham).
  cbn [fst snd]. split; [done|].
  apply list_find_Some in Hloc as (Hi & _).
  exists ((withAlphaMode (blendModeFor alpha) ∘ withBaseColorFactor (restoredColor w m alpha)) m).
  split_and!.
  - rewrite materialsOf_painted. simpl. by rewrite list_lookup_alter_eq, Hi.
  - done.
  - simpl. unfold blendModeFor. by destruct (Js.lt_one alpha).
  - simpl. unfold blendModeFor. by destruct (Js.lt_one alpha).
Qed.

(** C2, as the code has it. Let the material found for the name (the first
    one whose name equals it up to case) expose a [pbrMetallicRoughness]
    handle, with both mutators going through, and let its own name be cached
    with colour [c]. Then [setMaterialAlpha(name, 0.0)] followed by
    [setMaterialAlpha(name, 1.0)] both return normally and leave that
    material with base colour [c]'s RGB and alpha 1.0, and blend mode
    [OPAQUE]. *)
Theorem setMaterialAlpha_round_trip w matName i m pmr n c :
  located matName w = Some (i, m) →
  SceneGraph.pbrMetallicRoughness m = Some pmr →
  SceneGraph.setBaseColorFactor_callable pmr = true →
  SceneGraph.setAlphaMode_callable m = true →
  SceneGraph.name m = Some n →
  originalColor w !! n = Some c →
  let w1 := (setMaterialAlpha matName 0 w).2 in
  let w2 := (setMaterialAlpha matName 1 w1).2 in
  (setMaterialAlpha matName 0 w).1 = Normal tt ∧
  (setMaterialAlpha matName 1 w1).1 = Normal tt ∧
  ∃ m2 pmr2,
    materialsOf (mvRef w2) !! i = Some m2 ∧
    SceneGraph.name m2 = Some n ∧
    SceneGraph.pbrMetallicRoughness m2 = Some pmr2 ∧
    SceneGraph.baseColorFactor pmr2 = Some (Rgba (red c) (green c) (blue c) 1) ∧
    SceneGraph.alphaMode m2 = OPAQUE.
Proof.
  intros Hloc Hpmr Hbcf Ham Hn Hc w1 w2. subst w2 w1.
  rewrite (setMaterialAlpha_painted _ 0 _ _ _ _ Hloc Hpmr Hbcf Ham).
  cbn [fst snd].
  set (f1 := withAlphaMode (blendModeFor 0) ∘ withBaseColorFactor (restoredColor w m 0)).
  set (w1 := painted _ _ _ _).
  assert (materialsOf (mvRef w1) = alter f1 i (materialsOf (mvRef w))) as Hmats1.
  { unfold w1. by rewrite materialsOf_painted. }
  assert (located matName w1 = Some (i, f1 m)) as Hloc1.
  { unfold located. rewrite Hmats1. apply list_find_alter_stable; [|done].
    intros y. by rewrite (sameNameIgnoringCase_name matName y (f1 y)). }
  assert (originalColor w1 = originalColor w) as Hcache1 by done.
  rewrite (setMaterialAlpha_painted _ 1 w1 i (f1 m) _ Hloc1
             ltac:(unfold f1; simpl; by rewrite Hpmr) Hbcf Ham).
  cbn [fst snd]. split_and!; [done..|].
  apply list_find_Some in Hloc1 as (Hi1 & _).
  eexists _, _. split_and!.
  - rewrite materialsOf_painted. change (mvRef (record _ w1)) with (mvRef w1).
    by rewrite list_lookup_alter_eq, Hi1.
  - done.
  - simpl. rewrite Hpmr. done.
  - simpl. unfold restoredColor. rewrite Hcache1. simpl. rewrite Hn. simpl.
    by rewrite Hc.
  - done.
Qed.

(** ** The alpha setter on every input *)

(** [pmr.setBaseColorFactor] cannot be called: the exception leaves before
    anything is written. *)
Lemma setMaterialAlpha_refused matName alpha w i m pmr :
  located matName w = Some (i, m) →
  SceneGraph.pbrMetallicRoughness m = Some pmr →
  SceneGraph.setBaseColorFactor_callable pmr = false →
  setMaterialAlpha matName alpha w =
  (Throw (Js.TypeError "pmr.setBaseColorFactor is not a function"),
   record (CallSetMaterialAlpha matName alpha) w).
Proof.
  unfold located, setMaterialAlpha. run_handler. intros -> Hpmr Hbcf. simpl.
  rewrite Hpmr. unfold setBaseColorFactor. by rewrite Hbcf.
Qed.

(** [m.setAlphaMode] cannot be called: the colour is written, then the
    exception leaves. *)
Lemma setMaterialAlpha_recoloured matName alpha w i m pmr :
  located matName w = Some (i, m) →
  SceneGraph.pbrMetallicRoughness m = Some pmr →
  SceneGraph.setBaseColorFactor_callable pmr = true →
  SceneGraph.setAlphaMode_callable m = false →
  setMaterialAlpha matName alpha w =
  (Throw (Js.TypeError "m.setAlphaMode is not a function"),
   recoloured i (restoredColor w m alpha)
     (record (CallSetMaterialAlpha matName alpha) w)).
Proof.
  unfold located, setMaterialAlpha. run_handler. intros -> Hpmr Hbcf Ham. simpl.
  rewrite Hpmr. unfold setBaseColorFactor, setAlphaMode. rewrite Hbcf, Ham.
  by run_handler.
Qed.

Lemma materialsOf_recoloured i c w :
  materialsOf (mvRef (recoloured i c w)) =
  alter (withBaseColorFactor c) i (materialsOf (mvRef w)).
Proof. unfold recoloured. simpl. apply materialsOf_alterMaterial. Qed.

Lemma alterMaterial_variants i f (o : option MVElement) :
  availableVariants <$> (alterMaterial i f <$> o) = availableVariants <$> o ∧
  variantName <$> (alterMaterial i f <$> o) = variantName <$> o.
Proof. by destruct o. Qed.

(** The four ways a call can go, with the world each one leaves. *)
Lemma setMaterialAlpha_cases matName alpha w :
  let call := record (CallSetMaterialAlpha matName alpha) w in
  let r := setMaterialAlpha matName alpha w in
  (r = (Normal tt, call) ∧
   (located matName w = None ∨
    ∃ i m, located matName w = Some (i, m) ∧
           SceneGraph.pbrMetallicRoughness m = None)) ∨
  (∃ i m pmr, located matName w = Some (i, m) ∧
     SceneGraph.pbrMetallicRoughness m = Some pmr ∧
     ((SceneGraph.setBaseColorFactor_callable pmr = false ∧
       r = (Throw (Js.TypeError "pmr.setBaseColorFactor is not a function"), call)) ∨
      (SceneGraph.setBaseColorFactor_callable pmr = true ∧
       SceneGraph.setAlphaMode_callable m = false ∧
       r = (Throw (Js.TypeError "m.setAlphaMode is not a function"),
            recoloured i (restoredColor w m alpha) call)) ∨
      (SceneGraph.setBaseColorFactor_callable pmr = true ∧
       SceneGraph.setAlphaMode_callable m = true ∧
       r = (Normal tt,
            painted i (restoredColor w m alpha) (blendModeFor alpha) call)))).
Proof.
  intros call r. subst call r.
  destruct (located matName w) as [[i m]|] eqn:Hloc.
  - destruct (SceneGraph.pbrMetallicRoughness m) as [pmr|] eqn:Hpmr.
    + right. exists i, m, pmr. split_and!; [done..|].
      destruct (SceneGraph.setBaseColorFactor_callable pmr) eqn:Hbcf.
      * destruct (SceneGraph.setAlphaMode_callable m) eqn:Ham.
        -- right. right. split_and!; [done..|].
           by apply setMaterialAlpha_painted with pmr.
        -- right. left. split_and!; [done..|].
           by apply setMaterialAlpha_recoloured with pmr.
      * left. split; [done|]. by apply setMaterialAlpha_refused with i m pmr.
    + left. split; [by eapply setMaterialAlpha_no_pbr|]. right. by exists i, m.
  - left. split; [by apply setMaterialAlpha_not_located|]. by left.
Qed.

(** In every case the materials afterwards are the materials before with
    the found one updated in place, by an update that keeps its name, its
    handle and what can be called on it. *)
Lemma setMaterialAlpha_materials matName alpha w :
  ∃ g : Material → Material,
    (∀ x, SceneGraph.name (g x) = SceneGraph.name x) ∧
    (∀ x, SceneGraph.setAlphaMode_callable (g x) = SceneGraph.setAlphaMode_callable x) ∧
    (∀ x, SceneGraph.setBaseColorFactor_callable <$> SceneGraph.pbrMetallicRoughness (g x)
          = SceneGraph.setBaseColorFactor_callable <$> SceneGraph.pbrMetallicRoughness x) ∧
    materialsOf (mvRef (setMaterialAlpha matName alpha w).2) =
    match located matName w with
    | Some (i, _) => alter g i (materialsOf (mvRef w))
    | None => materialsOf (mvRef w)
    end.
Proof.
  destruct (setMaterialAlpha_cases matName alpha w)
    as [[-> Hwhy]|(i & m & pmr & Hloc & Hpmr & [[_ ->]|[(_ & _ & ->)|(_ & _ & ->)]])].
  - exists id. split_and!; [done..|]. simpl.
    destruct (located matName w) as [[i m]|]; [|done]. by rewrite list_alter_id.
  - exists id. split_and!; [done..|]. simpl. rewrite Hloc. by rewrite list_alter_id.
  - exists (withBaseColorFactor (restoredColor w m alpha)). split_and!; [done|done| |].
    + intros x. simpl. by destruct (SceneGraph.pbrMetallicRoughness x).
    + cbn [snd]. by rewrite materialsOf_recoloured, Hloc.
  - exists (withAlphaMode (blendModeFor alpha) ∘ withBaseColorFactor (restoredColor w m alpha)).
    split_and!; [done|done| |].
    + intros x. simpl. by destruct (SceneGraph.pbrMetallicRoughness x).
    + cbn [snd]. by rewrite materialsOf_painted, Hloc.
Qed.

(** The setter neither reads nor writes the material flags. *)
Lemma setMaterialAlpha_flags_commute matName alpha f w :
  setMaterialAlpha matName alpha (setMaterialVisibility f w) =
  ((setMaterialAlpha matName alpha w).1,
   setMaterialVisibility f (setMaterialAlpha matName alpha w).2).
Proof.
  unfold setMaterialAlpha. run_handler.
  destruct (list_find _ _) as [[i m]|]; simpl; [|done].
  destruct (SceneGraph.pbrMetallicRoughness m) as [pmr|]; simpl; [|done].
  unfold setBaseColorFactor, setAlphaMode. run_handler.
  destruct (SceneGraph.setBaseColorFactor_callable pmr); simpl; [|done].
  by destruct (SceneGraph.setAlphaMode_callable m).
Qed.

(** [find] after an in-place update of the found material that keeps names. *)
Lemma located_alter matName w w' i m (g : Material → Material) :
  (∀ x, SceneGraph.name (g x) = SceneGraph.name x) →
  materialsOf (mvRef w') = alter g i (materialsOf (mvRef w)) →
  located matName w = Some (i, m) →
  located matName w' = Some (i, g m).
Proof.
  intros Hname Hmats Hloc. unfold located. rewrite Hmats.
  apply list_find_alter_stable; [|done].
  intros y. by rewrite (sameNameIgnoringCase_name matName y (g y)).
Qed.

Lemma withBaseColorFactor_twice c x :
  withBaseColorFactor c (withBaseColorFactor c x) = withBaseColorFactor c x.
Proof.
  destruct x as [n [p|] am cam]; done.
Qed.

Lemma repaint_twice mode c x :
  (withAlphaMode mode ∘ withBaseColorFactor c)
    ((withAlphaMode mode ∘ withBaseColorFactor c) x) =
  (withAlphaMode mode ∘ withBaseColorFactor c) x.
Proof.
  destruct x as [n [p|] am cam]; done.
Qed.

Lemma restoredColor_alter w w' m (g : Material → Material) alpha :
  SceneGraph.name (g m) = SceneGraph.name m →
  originalColor w' = originalColor w →
  restoredColor w' (g m) alpha = restoredColor w m alpha.
Proof. unfold restoredColor. by intros -> ->. Qed.

(** ** Group toggles *)

(** The handler when [groups[groupKey]] is an array, or nothing, or
    something without a [length], or when there is no material. *)
Lemma updateGroupVisibility_unfold groupKey visible w :
  strays groupKey w = false →
  updateGroupVisibility groupKey visible w =
  let w0 := setGroupVisibility (λ prev, <[groupKey := visible]> prev) w in
  match mvRef w, default [] (groups w !! groupKey) with
  | None, _ | _, [] => (Normal tt, w0)
  | Some el, p :: ps =>
      tryCatch (toggleMatching (p :: ps) visible (materialsOf (Some el)))
        (λ e, consoleWarn ("Failed to toggle group " +:+ groupKey) e) w0
  end.
Proof.
  unfold strays, updateGroupVisibility, Js.patternsAt.
  unfold mbind at 1 2. unfold Handler_bind at 1 2. unfold update at 1, getWorld.
  cbn beta iota. cbn [groups setGroupVisibility mvRef].
  destruct (mvRef w) as [el|] eqn:Hel; [|by destruct (groups w !! groupKey) as [[|??]|]].
  destruct (groups w !! groupKey) as [[|p ps]|] eqn:Hpat;
    cbn [default from_option id Js.noLength].
  - done.
  - intros _. reflexivity.
  - destruct (Js.inherited groupKey) as [[[|n]|]|]; cbn [Js.noLength negb andb];
      [done| |done..].
    intros Hmats%bool_decide_eq_false. apply dec_stable in Hmats. by rewrite Hmats.
Qed.

(** The handler when [groups[groupKey]] is a function of
    [Object.prototype]: the first material makes [patterns.some] raise, the
    exception is caught and logged, and only the group flag was set. *)
Lemma updateGroupVisibility_strays groupKey visible w :
  strays groupKey w = true →
  groups w !! groupKey = None ∧
  updateGroupVisibility groupKey visible w =
  (Normal tt,
   record (ConsoleWarn ("Failed to toggle group " +:+ groupKey)
             (Js.TypeError "patterns.some is not a function"))
     (setGroupVisibility (λ prev, <[groupKey := visible]> prev) w)).
Proof.
  unfold strays, updateGroupVisibility, Js.patternsAt.
  unfold mbind at 1 2. unfold Handler_bind at 1 2. unfold update at 1, getWorld.
  cbn beta iota. cbn [groups setGroupVisibility mvRef].
  destruct (groups w !! groupKey) as [l|] eqn:Hpat; [done|].
  destruct (Js.inherited groupKey) as [[n|]|]; [|done..].
  intros [Hlen Hmats%bool_decide_eq_true]%andb_prop. split; [done|].
  destruct (mvRef w) as [el|] eqn:Hel; [|done].
  destruct (Js.noLength _); [done|].
  destruct (materialsOf (Some el)) as [|m mats]; [done|]. reflexivity.
Qed.

Lemma toggleMatching_cons patterns visible m mats w :
  toggleMatching patterns visible (m :: mats) w =
  if inGroup patterns m then
    match setMaterialAlpha (nameOf m) (alphaOf visible) w with
    | (Normal _, w1) =>
        toggleMatching patterns visible mats
          (setMaterialVisibility (λ s, <[nameOf m := visible]> s) w1)
    | (Throw e, w1) => (Throw e, w1)
    end
  else toggleMatching patterns visible mats w.
Proof.
  unfold toggleMatching at 1. simpl. unfold inGroup, nameOf. run_handler.
  destruct (matchesAny _ _); simpl; [|done].
  by destruct (setMaterialAlpha _ _ w) as [[[]|e] w1].
Qed.

Lemma matching_cons patterns m mats :
  matching patterns (m :: mats) =
  if inGroup patterns m then m :: matching patterns mats else matching patterns mats.
Proof.
  unfold matching. rewrite filter_cons.
  destruct (inGroup patterns m); by case_decide.
Qed.

(** Whatever happens in the loop, the group flags and group patterns are
    not touched. *)
Lemma toggleMatching_frame patterns visible mats w :
  let w' := (toggleMatching patterns visible mats w).2 in
  groupVisibility w' = groupVisibility w ∧ groups w' = groups w.
Proof.
  revert w. induction mats as [|m mats IH]; intros w; [done|].
  rewrite toggleMatching_cons. destruct (inGroup patterns m); [|apply IH].
  pose proof (setMaterialAlpha_frame (nameOf m) (alphaOf visible) w) as (_&_&Hgv&Hg&_).
  destruct (setMaterialAlpha _ _ w) as [[[]|e] w1]; simpl in *; [|done].
  destruct (IH (setMaterialVisibility (λ s, <[nameOf m := visible]> s) w1)) as [-> ->].
  done.
Qed.

(** With no material in the group, the loop does nothing. *)
Lemma toggleMatching_none patterns visible mats w :
  matching patterns mats = [] →
  toggleMatching patterns visible mats w = (Normal tt, w).
Proof.
  induction mats as [|m mats IH]; intros Hnone; [done|].
  rewrite toggleMatching_cons. rewrite matching_cons in Hnone.
  destruct (inGroup patterns m); [done|]. by apply IH.
Qed.

(** When the mutators can be called, one invocation of the setter returns
    normally, is recorded once, and keeps the mutators callable. *)
Lemma setMaterialAlpha_callable matName alpha w :
  Forall mutatorsCallable (materialsOf (mvRef w)) →
  let w' := (setMaterialAlpha matName alpha w).2 in
  (setMaterialAlpha matName alpha w).1 = Normal tt ∧
  Forall mutatorsCallable (materialsOf (mvRef w')) ∧
  alphaCalls (trace w') = alphaCalls (trace w) ++ [(matName, alpha)] ∧
  warnings (trace w') = warnings (trace w).
Proof.
  intros Hall.
  destruct (located matName w) as [[i m]|] eqn:Hloc.
  - pose proof Hloc as (Hi & _)%list_find_Some.
    pose proof (proj1 (Forall_lookup _ _) Hall i m Hi) as [Ham Hbcf].
    destruct (SceneGraph.pbrMetallicRoughness m) as [pmr|] eqn:Hpmr.
    + rewrite (setMaterialAlpha_painted _ alpha _ _ _ _ Hloc Hpmr (Hbcf _ eq_refl) Ham).
      cbn [fst snd]. split_and!; [done| | |].
      * rewrite materialsOf_painted. apply Forall_alter; [done|].
        intros x _ [Hx1 Hx2]. split; [done|]. simpl.
        destruct (SceneGraph.pbrMetallicRoughness x) as [px|]; [|done].
        intros ? [= <-]. simpl. by apply Hx2.
      * simpl. unfold alphaCalls. by rewrite !omap_app, <-!app_assoc, app_nil_r.
      * simpl. unfold warnings. by rewrite !omap_app, !app_nil_r.
    + rewrite (setMaterialAlpha_no_pbr _ alpha _ _ _ Hloc Hpmr). simpl.
      unfold alphaCalls, warnings. by rewrite !omap_app, app_nil_r.
  - rewrite (setMaterialAlpha_not_located _ alpha _ Hloc). simpl.
    unfold alphaCalls, warnings. by rewrite !omap_app, app_nil_r.
Qed.

(** The loop over the materials when the mutators can be called. *)
Lemma toggleMatching_callable patterns visible mats w :
  Forall mutatorsCallable (materialsOf (mvRef w)) →
  let w' := (toggleMatching patterns visible mats w).2 in
  (toggleMatching patterns visible mats w).1 = Normal tt ∧
  alphaCalls (trace w') =
    alphaCalls (trace w) ++
      ((λ m, (nameOf m, alphaOf visible)) <$> matching patterns mats) ∧
  materialVisibility w' =
    foldl (λ s m, <[nameOf m := visible]> s) (materialVisibility w)
      (matching patterns mats) ∧
  warnings (trace w') = warnings (trace w).
Proof.
  revert w. induction mats as [|m mats IH]; intros w Hall.
  { simpl. by rewrite app_nil_r. }
  rewrite toggleMatching_cons, matching_cons.
  destruct (inGroup patterns m) eqn:Hm.
  - pose proof (setMaterialAlpha_callable (nameOf m) (alphaOf visible) w Hall)
      as (Hres & Hall1 & Hcalls & Hwarn).
    pose proof (setMaterialAlpha_frame (nameOf m) (alphaOf visible) w) as (_&Hvis&_).
    destruct (setMaterialAlpha _ _ w) as [[[]|e] w1]; simpl in *; [|done].
    destruct (IH (setMaterialVisibility (λ s, <[nameOf m := visible]> s) w1) Hall1)
      as (-> & -> & -> & ->).
    simpl. rewrite Hcalls, Hvis, Hwarn. by rewrite <-app_assoc.
  - by apply IH.
Qed.

Lemma foldl_flags_in (visible : bool) (l : list Material) (s : gmap string bool) m :
  m ∈ l →
  foldl (λ s m, <[nameOf m := visible]> s) s l !! nameOf m = Some visible.
Proof.
  revert s. induction l as [|x l IH] using rev_ind; intros s Hm.
  - by apply elem_of_nil in Hm.
  - rewrite foldl_app. simpl. apply elem_of_app in Hm as [Hm|Hm].
    + destruct (decide (nameOf x = nameOf m)) as [->|].
      * apply lookup_insert_eq.
      * rewrite lookup_insert_ne by done. by apply IH.
    + apply list_elem_of_singleton in Hm as ->. apply lookup_insert_eq.
Qed.

Lemma foldl_flags_other (visible : bool) (l : list Material) (s : gmap string bool) k :
  (∀ m, m ∈ l → nameOf m ≠ k) →
  foldl (λ s m, <[nameOf m := visible]> s) s l !! k = s !! k.
Proof.
  revert s. induction l as [|x l IH]; intros s Hk; [done|]. simpl.
  rewrite IH.
  - apply lookup_insert_ne. apply Hk, elem_of_cons. by left.
  - intros m Hm. apply Hk, elem_of_cons. by right.
Qed.

(** ** Substring matching *)

Lemma append_cons c p b : String c p +:+ b = String c (p +:+ b).
Proof. reflexivity. Qed.

Lemma prefix_spec p s :
  String.prefix p s = true ↔ ∃ b, s = p +:+ b.
Proof.
  revert s. induction p as [|c p IH]; intros s.
  - destruct s; simpl; (split; [intros _; eauto|done]).
  - destruct s as [|d s]; simpl.
    + split; [done|]. by intros [b ?].
    + destruct (ascii_dec c d) as [->|Hne].
      * rewrite IH. split; intros [b Hb]; exists b.
        -- by rewrite append_cons, Hb.
        -- rewrite append_cons in Hb. congruence.
      * split; [done|]. intros [b Hb]. rewrite append_cons in Hb. congruence.
Qed.

(** [s.includes(p)] holds exactly when [p] is a contiguous part of [s]. *)
Lemma includes_spec s p :
  Js.includes s p = true ↔ ∃ a b, s = a +:+ p +:+ b.
Proof.
  induction s as [|c s IH].
  - cbn [Js.includes]. rewrite orb_false_r, prefix_spec. split.
    + intros [b Hb]. by exists "", b.
    + intros (a & b & Hab). destruct a; [by exists b|done].
  - cbn [Js.includes]. rewrite orb_true_iff, prefix_spec, IH. split.
    + intros [[b Hb]|(a & b & Hab)].
      * by exists "", b.
      * exists (String c a), b. by rewrite append_cons, Hab.
    + intros (a & b & Hab). destruct a as [|c' a].
      * left. by exists b.
      * right. exists a, b. rewrite append_cons in Hab. congruence.
Qed.

(** A material is in the group exactly when its lower-cased name contains
    one of the lower-cased patterns. *)
Lemma inGroup_spec patterns m :
  inGroup patterns m = true ↔
  ∃ p a b, p ∈ patterns ∧
    Js.toLowerCase (nameOf m) = a +:+ Js.toLowerCase p +:+ b.
Proof.
  unfold inGroup, matchesAny. rewrite existsb_exists. split.
  - intros (p & Hp%list_elem_of_In & (a & b & Hab)%includes_spec). by exists p, a, b.
  - intros (p & a & b & Hp & Hab). exists p. split; [by apply list_elem_of_In|].
    apply includes_spec. by exists a, b.
Qed.

Lemma elem_of_matching patterns mats m :
  m ∈ matching patterns mats ↔ m ∈ mats ∧ inGroup patterns m = true.
Proof.
  unfold matching. rewrite list_elem_of_filter, Is_true_true.
  split; intros [? ?]; done.
Qed.

Lemma matching_no_patterns mats : matching [] mats = [].
Proof.
  induction mats as [|m mats IH]; [done|]. by rewrite matching_cons.
Qed.

Lemma inGroup_nameOf patterns m m' :
  nameOf m' = nameOf m → inGroup patterns m' = inGroup patterns m.
Proof. unfold inGroup. by intros ->. Qed.


(** ** The alpha setter inside a loop *)

(** [find] after an in-place update that keeps what the predicate looks at. *)
Lemma list_find_alter {A} (P : A → Prop) `{!∀ x, Decision (P x)}
    (f : A → A) (l : list A) i :
  (∀ y, P (f y) ↔ P y) →
  list_find P (alter f i l) =
  (λ jx : nat * A, (jx.1, if decide (jx.1 = i) then f jx.2 else jx.2)) <$> list_find P l.
Proof.
  intros Hf. destruct (list_find P l) as [[j x]|] eqn:Hfind; simpl.
  - apply list_find_Some in Hfind as (Hj & HP & Hleast). apply list_find_Some.
    split_and!.
    + case_decide as Hji.
      * subst. by rewrite list_lookup_alter_eq, Hj.
      * by rewrite list_lookup_alter_ne.
    + case_decide; [by apply Hf|done].
    + intros k y Hk Hlt. destruct (decide (k = i)) as [->|Hki].
      * rewrite list_lookup_alter_eq in Hk.
        destruct (l !! i) as [y0|] eqn:Hy0; simplify_eq/=.
        rewrite Hf. by eapply Hleast.
      * rewrite list_lookup_alter_ne in Hk by done. by eapply Hleast.
  - apply list_find_None. apply list_find_None in Hfind.
    apply Forall_alter; [done|]. intros x _ Hx. by rewrite Hf.
Qed.

(** A call keeps, for every name, the position [find] returns and what the
    found material is called, exposes and lets call. *)
Lemma located_kept matName alpha n w :
  let w' := (setMaterialAlpha matName alpha w).2 in
  match located n w with
  | None => located n w' = None
  | Some (j, x) =>
      ∃ x', located n w' = Some (j, x') ∧
        SceneGraph.name x' = SceneGraph.name x ∧
        SceneGraph.setAlphaMode_callable x' = SceneGraph.setAlphaMode_callable x ∧
        SceneGraph.setBaseColorFactor_callable <$> SceneGraph.pbrMetallicRoughness x'
        = SceneGraph.setBaseColorFactor_callable <$> SceneGraph.pbrMetallicRoughness x
  end.
Proof.
  intros w'.
  destruct (setMaterialAlpha_materials matName alpha w) as (g & Hname & Ham & Hbcf & Hmats).
  fold w' in Hmats.
  assert (∃ i, materialsOf (mvRef w') = alter g i (materialsOf (mvRef w))) as [i Hi].
  { destruct (located matName w) as [[i m]|]; [by exists i|].
    exists (length (materialsOf (mvRef w))). rewrite Hmats.
    apply list_eq. intros k.
    destruct (decide (k = length (materialsOf (mvRef w)))) as [->|].
    - rewrite list_lookup_alter_eq. by rewrite lookup_ge_None_2.
    - by rewrite list_lookup_alter_ne. }
  unfold located at 2 3. rewrite Hi.
  rewrite (list_find_alter _ g); last first.
  { intros y. by rewrite (sameNameIgnoringCase_name n y (g y)). }
  fold (located n w). destruct (located n w) as [[j x]|]; simpl; [|done].
  case_decide; eauto 6.
Qed.

(** Hence whether a call raises depends on the name only, not on the calls
    made before. *)
Lemma raises_stable matName alpha n w :
  raises n (setMaterialAlpha matName alpha w).2 = raises n w.
Proof.
  pose proof (located_kept matName alpha n w) as Hk. cbn zeta in Hk.
  unfold raises. destruct (located n w) as [[j x]|].
  - destruct Hk as (x' & -> & _ & -> & Hbcf).
    destruct (SceneGraph.pbrMetallicRoughness x'), (SceneGraph.pbrMetallicRoughness x);
      simplify_eq/=; by try rewrite Hbcf.
  - by rewrite Hk.
Qed.

(** One call: it is recorded once, logs nothing, keeps the flags, and
    raises or returns as [raises] tells. *)
Lemma setMaterialAlpha_outcome matName alpha w :
  let r := setMaterialAlpha matName alpha w in
  alphaCalls (trace r.2) = alphaCalls (trace w) ++ [(matName, alpha)] ∧
  warnings (trace r.2) = warnings (trace w) ∧
  materialVisibility r.2 = materialVisibility w ∧
  (if raises matName w then ∃ e, r.1 = Throw e else r.1 = Normal tt).
Proof.
  intros r. subst r. unfold raises.
  destruct (setMaterialAlpha_cases matName alpha w)
    as [[-> Hwhy]|(i & m & pmr & Hloc & Hpmr & [[Hb ->]|[(Hb & Ha & ->)|(Hb & Ha & ->)]])];
    cbn [fst snd].
  1: destruct Hwhy as [->|(i & m & -> & ->)].
  all: rewrite ?Hloc, ?Hpmr, ?Hb, ?Ha; simpl.
  all: unfold alphaCalls, warnings; rewrite !omap_app; simpl; rewrite ?app_nil_r.
  all: split_and!; eauto.
Qed.

(** [raises] tells what a call does, whatever the alpha. *)
Lemma raises_iff matName alpha w :
  raises matName w = true ↔ ∃ e, (setMaterialAlpha matName alpha w).1 = Throw e.
Proof.
  pose proof (setMaterialAlpha_outcome matName alpha w) as (_ & _ & _ & Hres).
  cbn zeta in Hres. destruct (raises matName w).
  - split; [by intros _|done].
  - rewrite Hres. split; [done|]. by intros [e ?].
Qed.

Lemma visited_all fails ms :
  (∀ m, m ∈ ms → fails m = false) →
  visited fails ms = ms ∧ completed fails ms = ms ∧ existsb fails ms = false.
Proof.
  induction ms as [|m ms IH]; intros Hms; [done|]. simpl.
  rewrite (Hms m) by (apply elem_of_cons; by left).
  destruct IH as (-> & -> & ->); [|done].
  intros x Hx. apply Hms, elem_of_cons. by right.
Qed.


(** The loop of [updateGroupVisibility] on every input: it invokes the
    setter on the materials of the group in order, up to and including the
    first on which it raises, sets the flag of those before that one, and
    logs nothing itself. *)
Lemma toggleMatching_run patterns visible mats fails w :
  (∀ m, fails m = raises (nameOf m) w) →
  let ms := matching patterns mats in
  let r := toggleMatching patterns visible mats w in
  alphaCalls (trace r.2) =
    alphaCalls (trace w) ++ ((λ m, (nameOf m, alphaOf visible)) <$> visited fails ms) ∧
  materialVisibility r.2 =
    foldl (λ s m, <[nameOf m := visible]> s) (materialVisibility w) (completed fails ms) ∧
  warnings (trace r.2) = warnings (trace w) ∧
  (if existsb fails ms then ∃ e, r.1 = Throw e else r.1 = Normal tt).
Proof.
  revert w. induction mats as [|m mats IH]; intros w Hfails.
  { simpl. by rewrite app_nil_r. }
  cbn zeta. rewrite toggleMatching_cons, matching_cons.
  destruct (inGroup patterns m) eqn:Hm; [|by apply IH].
  pose proof (setMaterialAlpha_outcome (nameOf m) (alphaOf visible) w)
    as (Hcalls & Hwarn & Hvis & Hres). cbn zeta in Hres.
  simpl. rewrite Hfails.
  destruct (raises (nameOf m) w) eqn:Hr.
  - destruct Hres as [e He].
    destruct (setMaterialAlpha _ _ w) as [[[]|e'] w1]; simpl in *; [done|].
    split_and!; eauto.
  - destruct (setMaterialAlpha (nameOf m) (alphaOf visible) w) as [[[]|e'] w1] eqn:Hcall;
      simpl in *; [|done].
    destruct (IH (setMaterialVisibility (λ s, <[nameOf m := visible]> s) w1))
      as (-> & -> & -> & Hrest).
    { intros x. rewrite Hfails.
      change (raises (nameOf x) (setMaterialVisibility _ w1)) with (raises (nameOf x) w1).
      replace w1 with (setMaterialAlpha (nameOf m) (alphaOf visible) w).2
        by (by rewrite Hcall).
      by rewrite raises_stable. }
    simpl. rewrite Hcalls, Hwarn, Hvis. by rewrite <-app_assoc.
Qed.

(** *** What a loop leaves written *)





(** C3, as the code has it. Provided no invocation of the setter raises,
    [updateGroupVisibility(group, visible)] returns normally and invokes the
    alpha setter once for each material whose lower-cased name contains one
    of the group's lower-cased patterns, in the order of the asset, with
    alpha 1.0 or 0.0, and for no other material; it sets the visibility
    flag of each such material to [visible]; and it leaves the flags of the
    other materials, and of every name no such material carries, as they
    were. *)
Theorem updateGroupVisibility_matching w groupKey visible :
  let patterns := default [] (groups w !! groupKey) in
  let mats := materialsOf (mvRef w) in
  (∀ m, m ∈ matching patterns mats → raises (nameOf m) w = false) →
  let w' := (updateGroupVisibility groupKey visible w).2 in
  (updateGroupVisibility groupKey visible w).1 = Normal tt ∧
  (∀ m, m ∈ matching patterns mats ↔
        m ∈ mats ∧ ∃ p a b, p ∈ patterns ∧
          Js.toLowerCase (nameOf m) = a +:+ Js.toLowerCase p +:+ b) ∧
  alphaCalls (trace w') =
    alphaCalls (trace w) ++
      ((λ m, (nameOf m, alphaOf visible)) <$> matching patterns mats) ∧
  (∀ m, m ∈ matching patterns mats →
        materialVisibility w' !! nameOf m = Some visible) ∧
  (∀ m, m ∈ mats → m ∉ matching patterns mats →
        materialVisibility w' !! nameOf m = materialVisibility w !! nameOf m) ∧
  (∀ k, (∀ m, m ∈ matching patterns mats → nameOf m ≠ k) →
        materialVisibility w' !! k = materialVisibility w !! k).
Proof.
  intros patterns mats Hall w'.
  assert ((updateGroupVisibility groupKey visible w).1 = Normal tt ∧
    alphaCalls (trace w') =
      alphaCalls (trace w) ++
        ((λ m, (nameOf m, alphaOf visible)) <$> matching patterns mats) ∧
    materialVisibility w' =
      foldl (λ s m, <[nameOf m := visible]> s) (materialVisibility w)
        (matching patterns mats)) as (Hres & Hcalls & Hvis).
  { subst w'. destruct (strays groupKey w) eqn:Hstray.
    { destruct (updateGroupVisibility_strays _ visible _ Hstray) as [Hnone ->].
      subst patterns. rewrite Hnone. simpl. rewrite matching_no_patterns. simpl.
      unfold alphaCalls. rewrite omap_app. simpl. by rewrite !app_nil_r. }
    rewrite updateGroupVisibility_unfold by done. cbn zeta.
    subst mats patterns.
    destruct (mvRef w) as [el|] eqn:Hel.
    - destruct (default [] (groups w !! groupKey)) as [|p ps] eqn:Hpat.
      + rewrite matching_no_patterns. simpl. by rewrite app_nil_r.
      + unfold tryCatch.
        pose proof (toggleMatching_run (p :: ps) visible (materialsOf (Some el))
          (λ m, raises (nameOf m) w)
          (setGroupVisibility (λ prev, <[groupKey := visible]> prev) w)
          ltac:(done)) as Hloop.
        cbn zeta in Hloop.
        destruct (visited_all (λ m, raises (nameOf m) w) _ Hall) as (Hv & Hc & He).
        rewrite Hv, Hc, He in Hloop.
        destruct Hloop as (Hcalls & Hvis & _ & Hres).
        destruct (toggleMatching _ _ _ _) as [[[]|e] w1]; simpl in *; done.
    - simpl. by rewrite app_nil_r. }
  split_and!; [done| |done| | |].
  - intros m. rewrite elem_of_matching, inGroup_spec. done.
  - intros m Hm. rewrite Hvis. by apply foldl_flags_in.
  - intros m Hm Hnot. rewrite Hvis. apply foldl_flags_other.
    intros m' Hm' Heq. apply Hnot. apply elem_of_matching.
    apply elem_of_matching in Hm' as [_ Hm']. split; [done|].
    by rewrite (inGroup_nameOf patterns m' m (eq_sym Heq)).
  - intros k Hk. rewrite Hvis. by apply foldl_flags_other.
Qed.

(** C10. [updateGroupVisibility(group, visible)] always returns normally
    with the group's own flag set to [visible] and the other group flags as
    they were. When there is no renderer element, or the group has no
    patterns of its own, or no material is in the group, no material is
    mutated: the element is untouched, no material flag changes and the
    setter is not invoked; and unless the key finds a function of
    [Object.prototype] in place of patterns, setting the group flag is all
    the call does. *)
Theorem updateGroupVisibility_group_flag w groupKey visible :
  let w' := (updateGroupVisibility groupKey visible w).2 in
  (updateGroupVisibility groupKey visible w).1 = Normal tt ∧
  groupVisibility w' !! groupKey = Some visible ∧
  (∀ k, k ≠ groupKey → groupVisibility w' !! k = groupVisibility w !! k) ∧
  (mvRef w = None ∨
   default [] (groups w !! groupKey) = [] ∨
   matching (default [] (groups w !! groupKey)) (materialsOf (mvRef w)) = [] →
     mvRef w' = mvRef w ∧
     materialVisibility w' = materialVisibility w ∧
     alphaCalls (trace w') = alphaCalls (trace w) ∧
     (strays groupKey w = false →
        w' = setGroupVisibility (λ prev, <[groupKey := visible]> prev) w)).
Proof.
  intros w'. subst w'.
  set (w0 := setGroupVisibility (λ prev, <[groupKey := visible]> prev) w).
  assert (groupVisibility w0 = <[groupKey := visible]> (groupVisibility w)) as Hw0
    by done.
  destruct (strays groupKey w) eqn:Hstray.
  { destruct (updateGroupVisibility_strays _ visible _ Hstray) as [Hnone ->].
    fold w0. cbn [fst snd]. simpl. split_and!; [done|apply lookup_insert_eq| |].
    - intros k Hk. by rewrite lookup_insert_ne.
    - intros _. split_and!; [done..| |done].
      unfold alphaCalls. rewrite omap_app. simpl. by rewrite app_nil_r. }
  rewrite updateGroupVisibility_unfold by done. cbn zeta. fold w0.
  destruct (mvRef w) as [el|] eqn:Hel; [destruct (default [] (groups w !! groupKey))
    as [|p ps] eqn:Hpat|]; cbn [fst snd].
  - rewrite Hw0. split_and!; [done|apply lookup_insert_eq| |done].
    intros k Hk. by rewrite lookup_insert_ne.
  - unfold tryCatch.
    pose proof (toggleMatching_frame (p :: ps) visible (materialsOf (Some el)) w0)
      as [Hgv _].
    assert (∀ r, groupVisibility
      (match toggleMatching (p :: ps) visible (materialsOf (Some el)) w0 with
       | (Normal a, w1) => (Normal a, w1)
       | (Throw e, w1) =>
           consoleWarn ("Failed to toggle group " +:+ groupKey) e w1
       end).2 = r → groupVisibility w0 = r) as Hflag.
    { intros r <-. destruct (toggleMatching _ _ _ _) as [[[]|e] w1]; simpl in *; done. }
    split_and!.
    + by destruct (toggleMatching _ _ _ _) as [[[]|e] w1].
    + rewrite <-(Hflag _ eq_refl), Hw0. apply lookup_insert_eq.
    + intros k Hk. rewrite <-(Hflag _ eq_refl), Hw0. by rewrite lookup_insert_ne.
    + intros [?|[?|Hnone]]; [done..|].
      by rewrite (toggleMatching_none _ visible _ w0 Hnone).
  - rewrite Hw0. split_and!; [done|apply lookup_insert_eq| |done].
    intros k Hk. by rewrite lookup_insert_ne.
Qed.

(** ** Failures *)

(** The handler passes no exception to its caller. *)
Lemma updateGroupVisibility_returns groupKey visible w :
  (updateGroupVisibility groupKey visible w).1 = Normal tt.
Proof.
  destruct (strays groupKey w) eqn:Hstray.
  { by destruct (updateGroupVisibility_strays _ visible _ Hstray) as [_ ->]. }
  rewrite updateGroupVisibility_unfold by done. cbn zeta.
  destruct (mvRef w) as [el|]; [|done].
  destruct (default [] (groups w !! groupKey)) as [|p ps]; [done|].
  unfold tryCatch. by destruct (toggleMatching _ _ _ _) as [[[]|e] w1].
Qed.


(** ** Variants and model switching *)

Lemma applyVariant_no_variant w :
  variant w = "" → applyVariant w = (Normal tt, w).
Proof.
  intros Hv. unfold applyVariant. run_handler. rewrite Hv.
  by destruct (mvRef w).
Qed.

(** C7. When the loaded element exposes no variant (an empty list, or no
    list at all), the load handler stores the empty variant list, leaves the
    active variant as it was, and writes nothing to the element: its
    [variantName] is untouched and no write is observed. With the active
    variant at its default [""], it stays there and the [variant] effect
    writes nothing either. The same holds for the whole load event. *)
Theorem onLoad_without_variants w el :
  mvRef w = Some el →
  default [] (availableVariants el) = [] →
  let w' := (onLoad w).2 in
  variants w' = [] ∧
  variant w' = variant w ∧
  mvRef w' = mvRef w ∧
  trace w' = trace w ∧
  (variant w = "" → variant w' = "" ∧ applyVariant w' = (Normal tt, w')) ∧
  (let w'' := (step (Loaded el) w).2 in
   variants w'' = [] ∧ variant w'' = variant w ∧ mvRef w'' = Some el ∧
   trace w'' = trace w).
Proof.
  intros Hel Hlist.
  assert (∀ w0, mvRef w0 = Some el →
            variants (onLoad w0).2 = [] ∧ variant (onLoad w0).2 = variant w0 ∧
            mvRef (onLoad w0).2 = mvRef w0 ∧ trace (onLoad w0).2 = trace w0) as Hload.
  { intros w0 Hel0. unfold onLoad. run_handler. rewrite Hel0. simpl.
    rewrite Hlist. simpl.
    destruct (collectMaterials _ _ _ _) as [[names vis] cache]. by simpl. }
  intros w'. destruct (Hload w Hel) as (Hvs & Hv & Hmv & Htr). fold w' in Hvs, Hv, Hmv, Htr.
  split_and!; [done..| |].
  - intros Hdef. rewrite Hv. split; [done|].
    apply applyVariant_no_variant. by rewrite Hv.
  - unfold step. simpl. run_handler. rewrite Hel. simpl.
    destruct (Hload (setMvRef (Some el) w) eq_refl) as (Hvs' & Hv' & Hmv' & Htr').
    destruct (onLoad (setMvRef (Some el) w)) as [r w1]. simpl in *.
    rewrite decide_True by done. by simpl.
Qed.

(** C4. Selecting another model source leaves, before anything else is
    handled, the variant list empty, the active variant [""], the material
    list empty, no material flag, an empty colour cache and every group flag
    [true]; a load notification that follows is handled in that state. *)
Theorem selectModel_resets w src :
  src ≠ currentModel w →
  let w' := (step (SelectModel src) w).2 in
  (step (SelectModel src) w).1 = Normal tt ∧
  currentModel w' = src ∧
  variants w' = [] ∧
  variant w' = "" ∧
  materials w' = [] ∧
  materialVisibility w' = ∅ ∧
  originalColor w' = ∅ ∧
  groupVisibility w' = ALL_GROUPS_VISIBLE ∧
  (∀ el evs, run (SelectModel src :: Loaded el :: evs) w = run (Loaded el :: evs) w').
Proof.
  intros Hsrc w'.
  assert ((step (SelectModel src) w).1 = Normal tt ∧
          currentModel w' = src ∧ variants w' = [] ∧ variant w' = "" ∧
          materials w' = [] ∧ materialVisibility w' = ∅ ∧
          originalColor w' = ∅ ∧ groupVisibility w' = ALL_GROUPS_VISIBLE)
    as (H1 & H2 & H3 & H4 & H5 & H6 & H7 & H8).
  { subst w'. unfold step.
    destruct (handle (SelectModel src) w) as [r w1] eqn:Hhandle.
    simpl in Hhandle. revert Hhandle. run_handler.
    rewrite decide_False by done. simpl. intros [= <- <-].
    case_decide as Hv; [done|].
    by rewrite applyVariant_no_variant by done. }
  split_and!; [done..|]. by intros el evs.
Qed.

(** * Further properties *)

(** ** The alpha setter, in general *)

(** X1. Whatever its arguments and however it ends, [setMaterialAlpha]
    keeps the number, the order and the names of the materials, leaves the
    element's variant properties alone, and changes no material other than
    the one [find] returns. *)
Theorem setMaterialAlpha_touches_one matName alpha w :
  let w' := (setMaterialAlpha matName alpha w).2 in
  SceneGraph.name <$> materialsOf (mvRef w') = SceneGraph.name <$> materialsOf (mvRef w) ∧
  length (materialsOf (mvRef w')) = length (materialsOf (mvRef w)) ∧
  availableVariants <$> mvRef w' = availableVariants <$> mvRef w ∧
  variantName <$> mvRef w' = variantName <$> mvRef w ∧
  ∀ j, fst <$> located matName w ≠ Some j →
       materialsOf (mvRef w') !! j = materialsOf (mvRef w) !! j.
Proof.
  intros w'.
  destruct (setMaterialAlpha_materials matName alpha w) as (g & Hname & _ & _ & Hmats).
  fold w' in Hmats.
  assert (availableVariants <$> mvRef w' = availableVariants <$> mvRef w ∧
          variantName <$> mvRef w' = variantName <$> mvRef w) as [Hav Hvn].
  { subst w'.
    destruct (setMaterialAlpha_cases matName alpha w)
      as [[-> _]|(i & m & pmr & _ & _ & [[_ ->]|[(_ & _ & ->)|(_ & _ & ->)]])];
      [done|done| |].
    - apply alterMaterial_variants.
    - unfold painted. cbn [snd mvRef record setMvRef].
      destruct (mvRef w); done. }
  split_and!; [| |done|done|]; rewrite Hmats.
  - destruct (located matName w) as [[i m]|]; [|done].
    rewrite (list_fmap_alter SceneGraph.name g id).
    + by rewrite list_alter_id.
    + apply Forall_forall. intros x _. apply Hname.
  - destruct (located matName w) as [[i m]|]; [|done]. apply length_alter.
  - intros j Hj. destruct (located matName w) as [[i m]|]; [|done].
    apply list_lookup_alter_ne. intros ->. by apply Hj.
Qed.

(** X2. [setMaterialAlpha] raises exactly when the material it finds has a
    [pbrMetallicRoughness] handle and one of the two mutators cannot be
    called; in every other case it returns normally. *)
Theorem setMaterialAlpha_raises_iff matName alpha w :
  (∃ e, (setMaterialAlpha matName alpha w).1 = Throw e) ↔
  ∃ i m pmr, located matName w = Some (i, m) ∧
    SceneGraph.pbrMetallicRoughness m = Some pmr ∧
    (SceneGraph.setBaseColorFactor_callable pmr = false ∨
     SceneGraph.setAlphaMode_callable m = false).
Proof.
  destruct (setMaterialAlpha_cases matName alpha w)
    as [[Hr Hwhy]|(i & m & pmr & Hloc & Hpmr & Hhow)]; cbn zeta in *.
  - rewrite Hr. split; [by intros [e ?]|].
    intros (i & m & pmr & Hloc & Hpmr & _).
    destruct Hwhy as [Hnone|(i' & m' & Hloc' & Hpmr')]; congruence.
  - split.
    + intros [e He]. exists i, m, pmr. split_and!; [done..|].
      destruct Hhow as [[? _]|[(_ & ? & _)|(_ & _ & Hr)]]; [by left|by right|].
      by rewrite Hr in He.
    + intros (i' & m' & pmr' & Hloc' & Hpmr' & Hbad).
      assert (i' = i ∧ m' = m) as [-> ->] by (split; congruence).
      assert (pmr' = pmr) as -> by congruence.
      destruct Hhow as [[_ ->]|[(_ & _ & ->)|(Hb & Ha & _)]]; [by eexists..|].
      destruct Hbad; congruence.
Qed.

(** X3. Calling [setMaterialAlpha] a second time with the same arguments
    changes no material any further, whether the calls return or raise. *)
Theorem setMaterialAlpha_idempotent matName alpha w :
  let w1 := (setMaterialAlpha matName alpha w).2 in
  let w2 := (setMaterialAlpha matName alpha w1).2 in
  materialsOf (mvRef w2) = materialsOf (mvRef w1) ∧
  (setMaterialAlpha matName alpha w1).1 = (setMaterialAlpha matName alpha w).1.
Proof.
  intros w1 w2. subst w2 w1.
  destruct (setMaterialAlpha_cases matName alpha w)
    as [[Hr Hwhy]|(i & m & pmr & Hloc & Hpmr & Hhow)]; cbn zeta in *.
  - rewrite Hr. cbn [fst snd].
    set (w1 := record (CallSetMaterialAlpha matName alpha) w).
    destruct Hwhy as [Hnone|(i & m & Hloc & Hpmr)].
    + by rewrite (setMaterialAlpha_not_located matName alpha w1 Hnone).
    + by rewrite (setMaterialAlpha_no_pbr matName alpha w1 i m Hloc Hpmr).
  - destruct Hhow as [[Hbcf ->]|[(Hbcf & Ham & ->)|(Hbcf & Ham & ->)]]; cbn [fst snd].
    + set (w1 := record (CallSetMaterialAlpha matName alpha) w).
      by rewrite (setMaterialAlpha_refused matName alpha w1 i m pmr Hloc Hpmr Hbcf).
    + set (c := restoredColor w m alpha).
      set (w1 := recoloured i c _).
      assert (located matName w1 = Some (i, withBaseColorFactor c m)) as Hloc1.
      { apply (located_alter matName w); [done| |done].
        unfold w1. by rewrite materialsOf_recoloured. }
      rewrite (setMaterialAlpha_recoloured matName alpha w1 i _ _ Hloc1
                 ltac:(simpl; by rewrite Hpmr) Hbcf Ham).
      cbn [fst snd]. split; [|done].
      rewrite materialsOf_recoloured.
      change (mvRef (record _ w1)) with (mvRef w1).
      rewrite (restoredColor_alter w w1 m (withBaseColorFactor c)) by done.
      fold c. unfold w1 at 1. rewrite materialsOf_recoloured.
      change (mvRef (record _ w)) with (mvRef w).
      rewrite list_alter_alter_eq. unfold w1. rewrite materialsOf_recoloured.
      change (mvRef (record _ w)) with (mvRef w).
      apply list_alter_ext; [|done]. intros x _. apply withBaseColorFactor_twice.
    + set (c := restoredColor w m alpha). set (mode := blendModeFor alpha).
      set (w1 := painted i c mode _).
      assert (located matName w1 = Some (i, (withAlphaMode mode ∘ withBaseColorFactor c) m))
        as Hloc1.
      { apply (located_alter matName w); [done| |done].
        unfold w1. by rewrite materialsOf_painted. }
      rewrite (setMaterialAlpha_painted matName alpha w1 i _ _ Hloc1
                 ltac:(simpl; by rewrite Hpmr) Hbcf Ham).
      cbn [fst snd]. split; [|done].
      rewrite materialsOf_painted.
      change (mvRef (record _ w1)) with (mvRef w1).
      rewrite (restoredColor_alter w w1 m (withAlphaMode mode ∘ withBaseColorFactor c)) by done.
      fold c mode. unfold w1. rewrite materialsOf_painted.
      change (mvRef (record _ w)) with (mvRef w).
      rewrite list_alter_alter_eq.
      apply list_alter_ext; [|done]. intros x _. apply repaint_twice.
Qed.

(** X4. [toggleSingleMaterial] sets the flag of the given name in every
    case, also when the renderer call raises, and touches no other flag, no
    group flag, the material list and the cache not at all; towards the
    renderer it is [setMaterialAlpha(name, visible ? 1.0 : 0.0)], with the
    same completion: nothing catches the exception. *)
Theorem toggleSingleMaterial_effect name visible w :
  let r := toggleSingleMaterial name visible w in
  let s := setMaterialAlpha name (alphaOf visible) w in
  r.1 = s.1 ∧
  mvRef r.2 = mvRef s.2 ∧
  materialVisibility r.2 = <[name := visible]> (materialVisibility w) ∧
  groupVisibility r.2 = groupVisibility w ∧
  materials r.2 = materials w ∧
  originalColor r.2 = originalColor w ∧
  warnings (trace r.2) = warnings (trace w).
Proof.
  intros r s. subst r s. unfold toggleSingleMaterial. run_handler.
  rewrite setMaterialAlpha_flags_commute.
  pose proof (setMaterialAlpha_frame name (alphaOf visible) w)
    as (Hoc & Hmv & Hgv & _ & Hm & _).
  assert (warnings (trace (setMaterialAlpha name (alphaOf visible) w).2)
          = warnings (trace w)) as Hwarn.
  { destruct (setMaterialAlpha_cases name (alphaOf visible) w)
      as [[-> _]|(i & m & pmr & _ & _ & [[_ ->]|[(_ & _ & ->)|(_ & _ & ->)]])];
      simpl; unfold warnings; rewrite !omap_app; simpl; by rewrite ?app_nil_r. }
  destruct (setMaterialAlpha name (alphaOf visible) w) as [[[]|e] w1];
    simpl in *; by rewrite ?Hmv.
Qed.

(** ** Hiding and showing again *)

Lemma list_alter_fixed {A} (f : A → A) (l : list A) i x :
  l !! i = Some x → f x = x → alter f i l = l.
Proof.
  intros Hi Hx. apply list_eq. intros j.
  destruct (decide (i = j)) as [<-|Hne].
  - rewrite list_lookup_alter_eq, Hi. simpl. by rewrite Hx.
  - by rewrite list_lookup_alter_ne.
Qed.

(** The material a name finds is the first one with its own name too. *)
Lemma located_first_named matName w i m n :
  located matName w = Some (i, m) →
  SceneGraph.name m = Some n → n ≠ "" →
  list_find (λ m', named m' n) (materialsOf (mvRef w)) = Some (i, m).
Proof.
  intros (Hi & Hsame & Hleast)%list_find_Some Hn Hne.
  apply list_find_Some. split_and!; [done| |].
  - unfold named, Js.truthy. rewrite Hn. by rewrite decide_False.
  - intros j y Hj Hlt Hy. apply (Hleast j y Hj Hlt).
    unfold named, Js.truthy in Hy.
    destruct (SceneGraph.name y) as [s|] eqn:Hs; [|done].
    case_decide; [done|]. simplify_eq.
    apply sameNameIgnoringCase_Some in Hsame as (s & Hs' & Hlow).
    unfold sameNameIgnoringCase. rewrite Hs. apply bool_decide_pack. congruence.
Qed.

Lemma toggleSingleMaterial_unfold name visible w :
  toggleSingleMaterial name visible w =
  ((setMaterialAlpha name (alphaOf visible) w).1,
   setMaterialVisibility (λ prev, <[name := visible]> prev)
     (setMaterialAlpha name (alphaOf visible) w).2).
Proof.
  unfold toggleSingleMaterial. run_handler. rewrite setMaterialAlpha_flags_commute.
  by destruct (setMaterialAlpha name (alphaOf visible) w) as [[[]|e] w1].
Qed.

Lemma show_after_hide c0 c1 x :
  (withAlphaMode (blendModeFor 1) ∘ withBaseColorFactor c1)
    ((withAlphaMode (blendModeFor 0) ∘ withBaseColorFactor c0) x) =
  withAlphaMode OPAQUE (withBaseColorFactor c1 x).
Proof. destruct x as [n [p|] am cam]; done. Qed.

(** Hiding, then showing again, a material with a handle and callable
    mutators whose own name is cached. *)
Lemma toggleSingleMaterial_steps matName w i m pmr n c :
  located matName w = Some (i, m) →
  SceneGraph.name m = Some n →
  SceneGraph.pbrMetallicRoughness m = Some pmr →
  SceneGraph.setBaseColorFactor_callable pmr = true →
  SceneGraph.setAlphaMode_callable m = true →
  originalColor w !! n = Some c →
  let hidden := toggleSingleMaterial matName false w in
  let shown := toggleSingleMaterial matName true hidden.2 in
  hidden.1 = Normal tt ∧
  shown.1 = Normal tt ∧
  materialsOf (mvRef shown.2) =
    alter (λ x, withAlphaMode OPAQUE
                  (withBaseColorFactor (Rgba (red c) (green c) (blue c) 1) x))
      i (materialsOf (mvRef w)) ∧
  materialVisibility shown.2 !! matName = Some true.
Proof.
  intros Hloc Hn Hpmr Hbcf Ham Hcache hidden shown. subst shown hidden.
  rewrite (toggleSingleMaterial_unfold matName false w).
  rewrite (setMaterialAlpha_painted matName (alphaOf false) w i m pmr Hloc Hpmr Hbcf Ham).
  cbn [fst snd].
  set (f1 := withAlphaMode (blendModeFor (alphaOf false))
               ∘ withBaseColorFactor (restoredColor w m (alphaOf false))).
  set (wh := setMaterialVisibility _ (painted _ _ _ _)).
  assert (materialsOf (mvRef wh) = alter f1 i (materialsOf (mvRef w))) as Hmats1.
  { unfold wh. change (mvRef (setMaterialVisibility ?f ?x)) with (mvRef x).
    by rewrite materialsOf_painted. }
  assert (located matName wh = Some (i, f1 m)) as Hloc1
    by (by apply (located_alter matName w)).
  rewrite (toggleSingleMaterial_unfold matName true wh).
  rewrite (setMaterialAlpha_painted matName (alphaOf true) wh i (f1 m) _ Hloc1
             ltac:(unfold f1; simpl; by rewrite Hpmr) Hbcf Ham).
  cbn [fst snd]. split_and!; [done..| |].
  - change (mvRef (setMaterialVisibility ?f ?x)) with (mvRef x).
    rewrite materialsOf_painted. change (mvRef (record _ wh)) with (mvRef wh).
    rewrite Hmats1, list_alter_alter_eq.
    apply list_alter_ext; [|done]. intros x _.
    rewrite (restoredColor_alter w wh m f1) by done.
    unfold f1. etrans; [apply show_after_hide|].
    unfold restoredColor. rewrite Hn. cbn [default from_option id].
    by rewrite Hcache.
  - simpl. apply lookup_insert_eq.
Qed.

(** X5. Hide and show restore an opaque material exactly. After a load
    notification on a cache with no entry for its name, let a named material
    found by the setter have base colour [c] with alpha 1 and blend mode
    [OPAQUE], and callable mutators. Then [toggleSingleMaterial(name, false)]
    followed by [toggleSingleMaterial(name, true)] both return normally and
    leave every material as loaded, and the flag of the name [true]. *)
Theorem hide_show_restores w0 el matName i m pmr n c :
  mvRef w0 = Some el →
  originalColor w0 !! n = None →
  let w := (onLoad w0).2 in
  located matName w = Some (i, m) →
  SceneGraph.name m = Some n → n ≠ "" →
  SceneGraph.pbrMetallicRoughness m = Some pmr →
  SceneGraph.baseColorFactor pmr = Some c →
  alphaChannel c = 1%float →
  SceneGraph.alphaMode m = OPAQUE →
  SceneGraph.setBaseColorFactor_callable pmr = true →
  SceneGraph.setAlphaMode_callable m = true →
  let hidden := toggleSingleMaterial matName false w in
  let shown := toggleSingleMaterial matName true hidden.2 in
  hidden.1 = Normal tt ∧
  shown.1 = Normal tt ∧
  materialsOf (mvRef shown.2) = materialsOf (mvRef w) ∧
  materialVisibility shown.2 !! matName = Some true.
Proof.
  intros Hel Hnone w Hloc Hn Hne Hpmr Hc Halpha Hmode Hbcf Ham hidden shown.
  (* the cache holds the loaded colour *)
  assert (originalColor w !! n = Some c) as Hcache.
  { pose proof (onLoad_effect w0 el Hel) as H. cbn zeta in H.
    destruct H as (_ & _ & _ & Hoc & _ & _ & _ & _ & Hmats). fold w in Hoc, Hmats.
    rewrite Hoc.
    pose proof (located_first_named matName w i m n Hloc Hn Hne) as Hfirst.
    rewrite Hmats, Hel in Hfirst.
    rewrite (collect_cache_first _ _ _ _ n i m Hnone Hfirst).
    unfold currentColor. rewrite Hpmr. cbv beta iota. by rewrite Hc. }
  pose proof (toggleSingleMaterial_steps matName w i m pmr n c
                Hloc Hn Hpmr Hbcf Ham Hcache) as (Hh & Hs & Hmats & Hflag).
  fold hidden in Hh, Hs, Hmats, Hflag. fold shown in Hs, Hmats, Hflag.
  split_and!; [done..| |done].
  rewrite Hmats. pose proof Hloc as (Hi & _)%list_find_Some.
  apply (list_alter_fixed _ _ _ m Hi).
  destruct m as [mn mp mam mcam], pmr as [pc pcall], c as [r g b a].
  simpl in *. by subst.
Qed.

(** ** Group toggles: what they spare, and the copy without flags *)

Lemma located_inGroup patterns matName w i x :
  located matName w = Some (i, x) →
  inGroup patterns x = matchesAny patterns (Js.toLowerCase matName).
Proof.
  intros (_ & Hsame & _)%list_find_Some.
  apply sameNameIgnoringCase_Some in Hsame as (s & Hs & Hlow).
  unfold inGroup, nameOf. rewrite Hs. simpl. by rewrite Hlow.
Qed.

(** A call for a name of the group changes no material outside the group. *)
Lemma setMaterialAlpha_spares patterns matName alpha w j x :
  matchesAny patterns (Js.toLowerCase matName) = true →
  materialsOf (mvRef w) !! j = Some x →
  inGroup patterns x = false →
  materialsOf (mvRef (setMaterialAlpha matName alpha w).2) !! j = Some x.
Proof.
  intros Hin Hj Hout.
  destruct (setMaterialAlpha_materials matName alpha w) as (g & _ & _ & _ & ->).
  destruct (located matName w) as [[i m]|] eqn:Hloc; [|done].
  rewrite list_lookup_alter_ne; [done|]. intros ->.
  pose proof Hloc as (Hi & _)%list_find_Some.
  assert (m = x) as -> by congruence.
  rewrite (located_inGroup patterns matName w j x Hloc) in Hout. congruence.
Qed.

Lemma toggleMatching_spares patterns visible mats w j x :
  materialsOf (mvRef w) !! j = Some x →
  inGroup patterns x = false →
  materialsOf (mvRef (toggleMatching patterns visible mats w).2) !! j = Some x.
Proof.
  revert w. induction mats as [|m mats IH]; intros w Hj Hout; [done|].
  rewrite toggleMatching_cons.
  destruct (inGroup patterns m) eqn:Hm; [|by apply IH].
  pose proof (setMaterialAlpha_spares patterns (nameOf m) (alphaOf visible) w j x
                Hm Hj Hout) as Hj1.
  destruct (setMaterialAlpha _ _ w) as [[[]|e] w1]; [|done].
  by apply IH.
Qed.

(** X6. [updateGroupVisibility] changes no material outside the group:
    a material whose lower-cased name contains none of the group's patterns
    is afterwards what it was, whatever the call does to the others and
    also when a mutator raises in between. *)
Theorem updateGroupVisibility_spares_others w groupKey visible j x :
  materialsOf (mvRef w) !! j = Some x →
  inGroup (default [] (groups w !! groupKey)) x = false →
  materialsOf (mvRef (updateGroupVisibility groupKey visible w).2) !! j = Some x.
Proof.
  intros Hj Hout.
  destruct (strays groupKey w) eqn:Hstray.
  { destruct (updateGroupVisibility_strays _ visible _ Hstray) as [_ ->]. exact Hj. }
  rewrite updateGroupVisibility_unfold by done. cbn zeta.
  destruct (mvRef w) as [el|] eqn:Hel; [|by rewrite <-Hel in Hj].
  destruct (default [] (groups w !! groupKey)) as [|p ps] eqn:Hpat.
  { cbn [snd]. change (mvRef (setGroupVisibility ?f ?y)) with (mvRef y).
    by rewrite Hel. }
  unfold tryCatch.
  pose proof (toggleMatching_spares (p :: ps) visible (materialsOf (Some el))
    (setGroupVisibility (λ prev, <[groupKey := visible]> prev) w) j x) as Hloop.
  change (mvRef (setGroupVisibility ?f ?y)) with (mvRef y) in Hloop.
  rewrite Hel in Hloop. specialize (Hloop Hj Hout).
  by destruct (toggleMatching _ _ _ _) as [[[]|e] w1].
Qed.

(** The loop of the copy without material flags. *)
Lemma carLoop_cons patterns visible m mats w :
  carLoop patterns visible (m :: mats) w =
  if inGroup patterns m then
    match setMaterialAlpha (nameOf m) (alphaOf visible) w with
    | (Normal _, w1) => carLoop patterns visible mats w1
    | (Throw e, w1) => (Throw e, w1)
    end
  else carLoop patterns visible mats w.
Proof.
  unfold carLoop at 1. simpl. unfold inGroup, nameOf. run_handler.
  destruct (matchesAny _ _); simpl; [|done].
  by destruct (setMaterialAlpha _ _ w) as [[[]|e] w1].
Qed.

Lemma carLoop_flags_commute patterns visible mats f w :
  carLoop patterns visible mats (setMaterialVisibility f w) =
  ((carLoop patterns visible mats w).1,
   setMaterialVisibility f (carLoop patterns visible mats w).2).
Proof.
  revert w. induction mats as [|m mats IH]; intros w; [done|].
  rewrite !carLoop_cons.
  destruct (inGroup patterns m); [|apply IH].
  rewrite setMaterialAlpha_flags_commute.
  destruct (setMaterialAlpha _ _ w) as [[[]|e] w1]; cbn [fst snd]; [apply IH|done].
Qed.

(** The loop with flags is the loop without, up to the flags. *)
Lemma toggleMatching_carLoop patterns visible mats w :
  ∃ f, toggleMatching patterns visible mats w =
       ((carLoop patterns visible mats w).1,
        setMaterialVisibility f (carLoop patterns visible mats w).2).
Proof.
  revert w. induction mats as [|m mats IH]; intros w.
  { exists id. unfold toggleMatching, carLoop. simpl. run_handler. by destruct w. }
  rewrite toggleMatching_cons, carLoop_cons.
  destruct (inGroup patterns m); [|apply IH].
  destruct (setMaterialAlpha _ _ w) as [[[]|e] w1].
  - destruct (IH (setMaterialVisibility (λ s, <[nameOf m := visible]> s) w1))
      as [f Hf].
    rewrite Hf, carLoop_flags_commute. cbn [fst snd].
    by exists (f ∘ (λ s, <[nameOf m := visible]> s)).
  - exists id. by destruct w1.
Qed.

Lemma carLoop_flags patterns visible mats w :
  materialVisibility (carLoop patterns visible mats w).2 = materialVisibility w ∧
  materials (carLoop patterns visible mats w).2 = materials w.
Proof.
  revert w. induction mats as [|m mats IH]; intros w; [done|].
  rewrite carLoop_cons. destruct (inGroup patterns m); [|apply IH].
  pose proof (setMaterialAlpha_frame (nameOf m) (alphaOf visible) w)
    as (_ & Hmv & _ & _ & Hm & _).
  destruct (setMaterialAlpha _ _ w) as [[[]|e] w1]; simpl in *; [|done].
  destruct (IH w1) as [-> ->]. done.
Qed.

Lemma CarDemo_updateGroupVisibility_unfold groupKey visible w :
  strays groupKey w = false →
  CarDemo.updateGroupVisibility groupKey visible w =
  let w0 := setGroupVisibility (λ prev, <[groupKey := visible]> prev) w in
  match mvRef w, default [] (groups w !! groupKey) with
  | None, _ | _, [] => (Normal tt, w0)
  | Some el, p :: ps =>
      tryCatch (carLoop (p :: ps) visible (materialsOf (Some el)))
        (λ e, consoleWarn ("Failed to toggle group " +:+ groupKey) e) w0
  end.
Proof.
  unfold strays, CarDemo.updateGroupVisibility, Js.patternsAt.
  unfold mbind at 1 2. unfold Handler_bind at 1 2. unfold update at 1, getWorld.
  cbn beta iota. cbn [groups setGroupVisibility mvRef].
  destruct (mvRef w) as [el|] eqn:Hel; [|by destruct (groups w !! groupKey) as [[|??]|]].
  destruct (groups w !! groupKey) as [[|p ps]|] eqn:Hpat;
    cbn [default from_option id Js.noLength].
  - done.
  - intros _. reflexivity.
  - destruct (Js.inherited groupKey) as [[[|n]|]|]; cbn [Js.noLength negb andb];
      [done| |done..].
    intros Hmats%bool_decide_eq_false. apply dec_stable in Hmats. by rewrite Hmats.
Qed.

Lemma CarDemo_updateGroupVisibility_strays groupKey visible w :
  strays groupKey w = true →
  CarDemo.updateGroupVisibility groupKey visible w =
  (Normal tt,
   record (ConsoleWarn ("Failed to toggle group " +:+ groupKey)
             (Js.TypeError "patterns.some is not a function"))
     (setGroupVisibility (λ prev, <[groupKey := visible]> prev) w)).
Proof.
  unfold strays, CarDemo.updateGroupVisibility, Js.patternsAt.
  unfold mbind at 1 2. unfold Handler_bind at 1 2. unfold update at 1, getWorld.
  cbn beta iota. cbn [groups setGroupVisibility mvRef].
  destruct (groups w !! groupKey) as [l|] eqn:Hpat; [done|].
  destruct (Js.inherited groupKey) as [[n|]|]; [|done..].
  intros [Hlen Hmats%bool_decide_eq_true]%andb_prop.
  destruct (mvRef w) as [el|] eqn:Hel; [|done].
  destruct (Js.noLength _); [done|].
  destruct (materialsOf (Some el)) as [|m mats]; [done|]. reflexivity.
Qed.

(** X7. The copy without material flags does to the renderer what the
    copy with the inspector does: for every state, group and boolean, the
    two [updateGroupVisibility] end the same way and agree on the element,
    on everything observed (calls, writes, warnings), on the group flags and
    on the cache; the copy without flags leaves the material flags and the
    material list alone. *)
Theorem updateGroupVisibility_copies_agree w groupKey visible :
  let a := updateGroupVisibility groupKey visible w in
  let b := CarDemo.updateGroupVisibility groupKey visible w in
  a.1 = b.1 ∧
  mvRef a.2 = mvRef b.2 ∧
  trace a.2 = trace b.2 ∧
  groupVisibility a.2 = groupVisibility b.2 ∧
  originalColor a.2 = originalColor b.2 ∧
  materialVisibility b.2 = materialVisibility w ∧
  materials b.2 = materials w.
Proof.
  intros a b. subst a b.
  destruct (strays groupKey w) eqn:Hstray.
  { destruct (updateGroupVisibility_strays _ visible _ Hstray) as [_ ->].
    by rewrite (CarDemo_updateGroupVisibility_strays _ visible _ Hstray). }
  rewrite updateGroupVisibility_unfold, CarDemo_updateGroupVisibility_unfold by done.
  cbn zeta.
  destruct (mvRef w) as [el|]; [|done].
  destruct (default [] (groups w !! groupKey)) as [|p ps]; [done|].
  set (w0 := setGroupVisibility _ w). unfold tryCatch.
  destruct (toggleMatching_carLoop (p :: ps) visible (materialsOf (Some el)) w0)
    as [f ->].
  destruct (carLoop_flags (p :: ps) visible (materialsOf (Some el)) w0) as [Hmv Hm].
  destruct (carLoop _ _ _ w0) as [[[]|e] w1]; simpl in *; by rewrite ?Hmv, ?Hm.
Qed.

(** ** Load notifications: the list, the variants, repetition *)

Lemma collect_names mats names vis cache :
  (collectMaterials mats names vis cache).1.1 = names ++ namesOf mats.
Proof.
  revert names vis cache.
  induction mats as [|m mats IH]; intros names vis cache; simpl.
  { by rewrite app_nil_r. }
  unfold namesOf in *. simpl.
  destruct (Js.truthy (SceneGraph.name m)) as [n|]; [|apply IH].
  rewrite IH. by rewrite <-app_assoc.
Qed.

(** Names and flags of the loop do not depend on the cache. *)
Lemma collect_cache_irrelevant mats names vis cache cache' :
  (collectMaterials mats names vis cache).1 = (collectMaterials mats names vis cache').1.
Proof.
  revert names vis cache cache'.
  induction mats as [|m mats IH]; intros names vis cache cache'; simpl; [done|].
  destruct (Js.truthy (SceneGraph.name m)) as [n|]; apply IH.
Qed.

(** The cache of the loop is the cache of the loop of the third copy. *)
Lemma collect_cache_cacheColors mats names vis cache :
  (collectMaterials mats names vis cache).2 = CarDemo.cacheColors mats cache.
Proof.
  revert names vis cache.
  induction mats as [|m mats IH]; intros names vis cache; simpl; [done|].
  destruct (Js.truthy (SceneGraph.name m)) as [n|]; apply IH.
Qed.

Lemma elem_of_namesOf mats n :
  n ∈ namesOf mats ↔ ∃ m, m ∈ mats ∧ named m n.
Proof.
  unfold namesOf. rewrite list_elem_of_omap. unfold named. naive_solver.
Qed.

Lemma cacheOnce_present n c cache :
  is_Some (cache !! n) → cacheOnce n c cache = cache.
Proof. intros [v Hv]. unfold cacheOnce. by rewrite Hv. Qed.

(** A cache that knows every name of the asset is left as it is. *)
Lemma cacheColors_saturated mats cache :
  (∀ n, n ∈ namesOf mats → is_Some (cache !! n)) →
  CarDemo.cacheColors mats cache = cache.
Proof.
  revert cache. induction mats as [|m mats IH]; intros cache Hall; simpl; [done|].
  unfold namesOf in Hall. simpl in Hall.
  destruct (Js.truthy (SceneGraph.name m)) as [n|].
  - rewrite cacheOnce_present by (apply Hall, elem_of_cons; by left).
    apply IH. intros k Hk. apply Hall, elem_of_cons. by right.
  - by apply IH.
Qed.

Lemma cacheColors_keeps mats cache k :
  is_Some (cache !! k) → is_Some (CarDemo.cacheColors mats cache !! k).
Proof.
  intros [v Hv]. exists v. rewrite <-(collect_cache_cacheColors mats [] ∅).
  by apply collect_cache_keeps.
Qed.

Lemma cacheColors_has mats cache n :
  n ∈ namesOf mats → is_Some (CarDemo.cacheColors mats cache !! n).
Proof.
  revert cache. induction mats as [|m mats IH]; intros cache Hn.
  { by apply elem_of_nil in Hn. }
  unfold namesOf in Hn. simpl in *.
  destruct (Js.truthy (SceneGraph.name m)) as [k|] eqn:Hk.
  - apply elem_of_cons in Hn as [->|Hn]; [|by apply IH].
    apply cacheColors_keeps. unfold cacheOnce.
    destruct (cache !! k) eqn:Hc; [by rewrite Hc|]. rewrite lookup_insert_eq. done.
  - by apply IH.
Qed.

(** The part of a load notification that concerns variants. *)
Lemma onLoad_variants_effect w el :
  mvRef w = Some el →
  let w' := (onLoad w).2 in
  match default [] (availableVariants el) with
  | [] => variant w' = variant w ∧ mvRef w' = Some el ∧ trace w' = trace w
  | first :: _ =>
      variant w' = (if decide (variant w = "") then first else variant w) ∧
      mvRef w' = Some (withVariantName (Js.or_else (variantName el) first) el) ∧
      trace w' = trace w ++ [WriteVariantName (Js.or_else (variantName el) first)]
  end.
Proof.
  intros Hel. unfold onLoad. run_handler. rewrite Hel. simpl.
  destruct (default [] (availableVariants el)) as [|first rest]; simpl.
  all: destruct (collectMaterials _ _ _ _) as [[names vis] cache]; simpl.
  all: by rewrite ?Hel.
Qed.

(** X8. After a load notification the material list holds the non-empty
    names of the asset's materials, one entry for each material that
    carries one (a name carried twice is listed twice); when
    [localeCompare] compares consistently (any two names are comparable,
    and transitively so), no name of the list is put after its successor;
    the list is empty exactly when no material carries a name, and then the
    inspector is not shown. *)
Theorem onLoad_lists_named_materials w el :
  mvRef w = Some el →
  let w' := (onLoad w).2 in
  materials w' ≡ₚ namesOf (materialsOf (Some el)) ∧
  (Total notAfter → Transitive notAfter → Sorted notAfter (materials w')) ∧
  (inspectorShown w' = true ↔ ∃ m n, m ∈ materialsOf (Some el) ∧ named m n).
Proof.
  intros Hel w'.
  pose proof (onLoad_effect w el Hel) as H. cbn zeta in H.
  destruct H as (_ & Hm & _). fold w' in Hm.
  rewrite collect_names in Hm. simpl in Hm.
  assert (materials w' ≡ₚ namesOf (materialsOf (Some el))) as Hperm.
  { rewrite Hm. apply merge_sort_Permutation. }
  split_and!; [done| |].
  - intros Htotal _. rewrite Hm. apply (Sorted_merge_sort notAfter).
  - unfold inspectorShown. split.
    + destruct (materials w') as [|n ns] eqn:Hw; [done|]. intros _.
      assert (n ∈ namesOf (materialsOf (Some el))) as Hn.
      { rewrite <-Hperm. apply elem_of_cons. by left. }
      apply elem_of_namesOf in Hn as (m & ? & ?). by exists m, n.
    + intros (m & n & Hin & Hn).
      assert (n ∈ materials w') as Hn'.
      { rewrite Hperm. apply elem_of_namesOf. by exists m. }
      destruct (materials w'); [by apply elem_of_nil in Hn'|done].
Qed.

Lemma or_else_twice o first :
  Js.or_else (Some (Js.or_else o first)) first = Js.or_else o first.
Proof.
  unfold Js.or_else. destruct (Js.truthy o) as [s|] eqn:Ho; simpl.
  - assert (s ≠ "") as Hs.
    { unfold Js.truthy in Ho. destruct o as [t|]; [|done].
      case_decide; congruence. }
    unfold Js.truthy. by rewrite decide_False.
  - unfold Js.truthy. case_decide; [by subst|done].
Qed.

(** X9. A load notification repeated on the element as the first one
    left it changes nothing but the trace: material list, material flags,
    colour cache, variant list, active variant, group flags and the element
    itself are what the first notification made them. *)
Theorem onLoad_idempotent w el :
  mvRef w = Some el →
  let w1 := (onLoad w).2 in
  let w2 := (onLoad w1).2 in
  materials w2 = materials w1 ∧
  materialVisibility w2 = materialVisibility w1 ∧
  originalColor w2 = originalColor w1 ∧
  variants w2 = variants w1 ∧
  variant w2 = variant w1 ∧
  groupVisibility w2 = groupVisibility w1 ∧
  mvRef w2 = mvRef w1.
Proof.
  intros Hel w1 w2.
  pose proof (onLoad_effect w el Hel) as H. cbn zeta in H.
  destruct H as (_ & Hm & Hmv & Hoc & Hvs & _ & Hgv & _ & _).
  pose proof (onLoad_variants_effect w el Hel) as Hv. cbn zeta in Hv.
  fold w1 in Hm, Hmv, Hoc, Hvs, Hgv, Hv.
  set (list := default [] (availableVariants el)) in *.
  (* the element after the first notification *)
  assert (∃ el1, mvRef w1 = Some el1 ∧
            availableVariants el1 = availableVariants el ∧
            materialsOf (Some el1) = materialsOf (Some el) ∧
            match list with
            | [] => el1 = el
            | first :: _ =>
                variantName el1 = Some (Js.or_else (variantName el) first) ∧
                el1 = withVariantName (Js.or_else (variantName el) first) el
            end) as (el1 & Hel1 & Hav & Hmats & Hvn).
  { destruct list as [|first rest]; destruct Hv as (_ & Hmv1 & _);
      eexists; (split; [exact Hmv1|]); done. }
  pose proof (onLoad_effect w1 el1 Hel1) as H. cbn zeta in H.
  destruct H as (_ & Hm2 & Hmv2 & Hoc2 & Hvs2 & _ & Hgv2 & _ & _).
  pose proof (onLoad_variants_effect w1 el1 Hel1) as Hv2. cbn zeta in Hv2.
  fold w2 in Hm2, Hmv2, Hoc2, Hvs2, Hgv2, Hv2.
  rewrite Hav in Hvs2, Hv2. fold list in Hvs2, Hv2. rewrite Hmats in Hm2, Hmv2, Hoc2.
  split_and!.
  - rewrite Hm2, Hm. f_equal.
    by rewrite (collect_cache_irrelevant _ _ _ (originalColor w1) (originalColor w)).
  - rewrite Hmv2, Hmv.
    by rewrite (collect_cache_irrelevant _ _ _ (originalColor w1) (originalColor w)).
  - rewrite Hoc2, collect_cache_cacheColors. apply cacheColors_saturated.
    intros n Hn. rewrite Hoc, collect_cache_cacheColors. by apply cacheColors_has.
  - by rewrite Hvs2, Hvs.
  - destruct list as [|first rest]; destruct Hv as (Hv & _), Hv2 as (Hv2 & _);
      [done|]. rewrite Hv2. case_decide as Hempty; [|done].
    rewrite Hv in Hempty. case_decide; congruence.
  - by rewrite Hgv2.
  - destruct list as [|first rest]; destruct Hv as (_ & Hr & _), Hv2 as (_ & Hr2 & _).
    + rewrite Hr2, Hr. by rewrite Hvn.
    + destruct Hvn as [Hvn ->]. rewrite Hr2, Hr. simpl.
      by rewrite or_else_twice.
Qed.

(** The load handler of the third copy, field by field. *)
Lemma CarDemo_onLoad_effect w el :
  mvRef w = Some el →
  let w' := (CarDemo.onLoad w).2 in
  (CarDemo.onLoad w).1 = Normal tt ∧
  originalColor w' = CarDemo.cacheColors (materialsOf (Some el)) (originalColor w) ∧
  variants w' = default [] (availableVariants el) ∧
  materials w' = materials w ∧
  materialVisibility w' = materialVisibility w ∧
  groupVisibility w' = groupVisibility w ∧
  match default [] (availableVariants el) with
  | [] => variant w' = variant w ∧ mvRef w' = Some el ∧ trace w' = trace w
  | first :: _ =>
      variant w' = (if decide (variant w = "") then first else variant w) ∧
      mvRef w' = Some (withVariantName (Js.or_else (variantName el) first) el) ∧
      trace w' = trace w ++ [WriteVariantName (Js.or_else (variantName el) first)]
  end.
Proof.
  intros Hel. unfold CarDemo.onLoad. run_handler. rewrite Hel. simpl.
  destruct (default [] (availableVariants el)) as [|first rest]; simpl.
  all: by rewrite ?Hel.
Qed.

(** X10. On a load notification the copies agree: the load handler
    without material list returns normally like the other one and leaves
    the same colour cache, variant list, active variant, element and trace;
    it only does not touch the material list and the material flags. *)
Theorem onLoad_copies_agree w el :
  mvRef w = Some el →
  let a := onLoad w in
  let b := CarDemo.onLoad w in
  a.1 = b.1 ∧
  originalColor a.2 = originalColor b.2 ∧
  variants a.2 = variants b.2 ∧
  variant a.2 = variant b.2 ∧
  mvRef a.2 = mvRef b.2 ∧
  trace a.2 = trace b.2 ∧
  groupVisibility a.2 = groupVisibility b.2 ∧
  materials b.2 = materials w ∧
  materialVisibility b.2 = materialVisibility w.
Proof.
  intros Hel a b. subst a b.
  pose proof (onLoad_effect w el Hel) as H. cbn zeta in H.
  destruct H as (Hr & _ & _ & Hoc & Hvs & _ & Hgv & _ & _).
  pose proof (onLoad_variants_effect w el Hel) as Hv. cbn zeta in Hv.
  pose proof (CarDemo_onLoad_effect w el Hel) as H. cbn zeta in H.
  destruct H as (Hr' & Hoc' & Hvs' & Hm' & Hmv' & Hgv' & Hv').
  rewrite Hr, Hr', Hoc, Hoc', Hvs, Hvs', Hgv, Hgv', collect_cache_cacheColors.
  destruct (default [] (availableVariants el)) as [|first rest];
    destruct Hv as (-> & -> & ->), Hv' as (-> & -> & ->); done.
Qed.

(** ** Variants *)

Lemma applyVariant_writes w el :
  mvRef w = Some el → variant w ≠ "" →
  applyVariant w =
  (Normal tt,
   record (WriteVariantName (variant w)) (setMvRef (Some (withVariantName (variant w) el)) w)).
Proof.
  intros Hel Hv. unfold applyVariant. run_handler. rewrite Hel.
  rewrite decide_False by done. unfold writeVariantName, update.
  by rewrite Hel.
Qed.

(** X11. A load event that brings variants, with no variant selected so
    far, selects the first one: afterwards the variant list is the asset's
    and the dropdown is shown, the active variant is the first entry, and
    the element's [variantName] is that entry too, whatever it was before. *)
Theorem load_selects_first_variant w el0 el first rest :
  mvRef w = Some el0 →
  variant w = "" →
  availableVariants el = Some (first :: rest) →
  first ≠ "" →
  let w' := (step (Loaded el) w).2 in
  variants w' = first :: rest ∧
  variantSelectorShown w' = true ∧
  variant w' = first ∧
  variantName <$> mvRef w' = Some (Some first).
Proof.
  intros Hel0 Hv Hav Hfirst. unfold step.
  destruct (handle (Loaded el) w) as [r w1] eqn:Hhandle.
  simpl in Hhandle. revert Hhandle. run_handler. rewrite Hel0. simpl.
  set (w0 := setMvRef (Some el) w).
  pose proof (onLoad_effect w0 el eq_refl) as H. cbn zeta in H.
  destruct H as (_ & _ & _ & _ & Hvs & _).
  pose proof (onLoad_variants_effect w0 el eq_refl) as Hvar. cbn zeta in Hvar.
  rewrite Hav in Hvs, Hvar. simpl in Hvs, Hvar.
  destruct Hvar as (Hvar & Hmv & _). rewrite Hv in Hvar. simpl in Hvar.
  destruct (onLoad w0) as [r0 w0']. simpl in *. intros [= <- <-].
  rewrite decide_False by (rewrite Hvar, Hv; done).
  rewrite (applyVariant_writes w0' _ Hmv) by (by rewrite Hvar).
  unfold variantSelectorShown. simpl. by rewrite Hvs, Hvar.
Qed.

(** X12. Choosing a variant in the dropdown: a non-empty variant other
    than the active one becomes the active variant and is written to the
    element's [variantName], once; the empty variant becomes active and
    nothing is written, the element keeps the [variantName] it had. *)
Theorem selectVariant_writes w el v :
  mvRef w = Some el →
  v ≠ variant w →
  let w' := (step (SelectVariant v) w).2 in
  variant w' = v ∧
  (v ≠ "" → variantName <$> mvRef w' = Some (Some v) ∧
            trace w' = trace w ++ [WriteVariantName v]) ∧
  (v = "" → mvRef w' = mvRef w ∧ trace w' = trace w).
Proof.
  intros Hel Hv. unfold step.
  destruct (handle (SelectVariant v) w) as [r w1] eqn:Hhandle.
  simpl in Hhandle. injection Hhandle as <- <-.
  rewrite decide_False by done. cbn [snd]. split_and!.
  - by pose proof (applyVariant_frame (setVariant (λ _, v) w)) as (_&_&_&_&_&->).
  - intros Hne. by rewrite (applyVariant_writes _ el).
  - intros ->. by rewrite applyVariant_no_variant.
Qed.

(** ** What every run keeps *)

Lemma applyVariant_keeps_groups w : groups (applyVariant w).2 = groups w.
Proof.
  unfold applyVariant. run_handler. destruct (mvRef w); [|done]. by case_decide.
Qed.

Lemma handle_keeps_groups ev w : groups (handle ev w).2 = groups w.
Proof.
  destruct ev as [src|el|v|name visible]; simpl; run_handler.
  - by case_decide.
  - destruct (mvRef w) as [el0|]; [|done]. simpl.
    pose proof (onLoad_effect (setMvRef (Some el) w) el eq_refl) as H.
    cbn zeta in H. by destruct H as (_ & _ & _ & _ & _ & -> & _).
  - done.
  - rewrite toggleSingleMaterial_unfold. cbn [snd].
    pose proof (setMaterialAlpha_frame name (alphaOf visible) w) as (_&_&_&Hg&_).
    by destruct (setMaterialAlpha name (alphaOf visible) w) as [r w1].
Qed.

Lemma step_keeps_groups ev w : groups (step ev w).2 = groups w.
Proof.
  unfold step. pose proof (handle_keeps_groups ev w) as H.
  destruct (handle ev w) as [r w1]. simpl in *. case_decide; simpl; [done|].
  by rewrite applyVariant_keeps_groups.
Qed.

(** X13. No event changes the group patterns: after any sequence of
    events they are the ones the component was mounted with. *)
Theorem run_keeps_groups evs w : groups (run evs w) = groups w.
Proof.
  revert w. induction evs as [|ev evs IH]; intros w; simpl; [done|].
  by rewrite IH, step_keeps_groups.
Qed.

Lemma handle_keeps_consistent ev w :
  inspectorConsistent w → inspectorConsistent (handle ev w).2.
Proof.
  intros Hw. destruct ev as [src|el|v|name visible]; simpl; run_handler.
  - case_decide; [done|]. simpl. intros n Hn. by apply elem_of_nil in Hn.
  - destruct (mvRef w) as [el0|]; [|done]. simpl.
    pose proof (onLoad_effect (setMvRef (Some el) w) el eq_refl) as H.
    cbn zeta in H. destruct H as (_ & Hm & Hmv & Hoc & _).
    intros n Hn. rewrite Hm, collect_names in Hn. unfold sortNames in Hn.
    rewrite merge_sort_Permutation, app_nil_l in Hn.
    pose proof Hn as (m & Hin & Hnamed)%elem_of_namesOf.
    rewrite Hmv, Hoc. split.
    + rewrite collect_cache_cacheColors. by apply cacheColors_has.
    + intros Hproto. exists true. by eapply collect_vis_named.
  - done.
  - rewrite toggleSingleMaterial_unfold. cbn [snd].
    pose proof (setMaterialAlpha_frame name (alphaOf visible) w)
      as (Hoc & Hmv & _ & _ & Hm & _).
    destruct (setMaterialAlpha name (alphaOf visible) w) as [r w1].
    simpl in *. intros n Hn. simpl in *.
    rewrite Hm in Hn. destruct (Hw n Hn) as [Hcol Hflag].
    rewrite Hoc, Hmv. split; [done|]. intros Hproto.
    destruct (decide (name = n)) as [->|].
    + rewrite lookup_insert_eq. done.
    + rewrite lookup_insert_ne by done. by apply Hflag.
Qed.

(** X14. Every row of the inspector has a cached colour, and a flag of
    its own unless its name is [__proto__] (for which the load handler
    creates none): if that holds when a sequence of events starts, as it
    does at mount, it holds when it ends, whatever the events and however
    their handlers end. *)
Theorem run_keeps_inspector_consistent evs w :
  inspectorConsistent w → inspectorConsistent (run evs w).
Proof.
  revert w. induction evs as [|ev evs IH]; intros w Hw; simpl; [done|].
  apply IH. unfold step.
  pose proof (handle_keeps_consistent ev w Hw) as H.
  destruct (handle ev w) as [r w1]. simpl in *. case_decide; simpl; [done|].
  pose proof (applyVariant_frame w1) as (Hoc & Hmv & _ & Hm & _).
  intros n Hn. rewrite Hm in Hn. rewrite Hoc, Hmv. by apply H.
Qed.

(** ** The inspector as shown *)

(** X15. After a load notification every row of the inspector is checked,
    and the rows are the material list. (The row of a material named
    [__proto__] has no flag of its own; its checkbox reads the prototype
    object, which is truthy.) *)
Theorem onLoad_checks_every_row w el :
  mvRef w = Some el →
  let w' := (onLoad w).2 in
  inspectorRows w' = (λ name, (name, true)) <$> materials w'.
Proof.
  intros Hel w'. unfold inspectorRows.
  apply list_fmap_ext. intros k n Hk.
  pose proof (onLoad_effect w el Hel) as H. cbn zeta in H.
  destruct H as (_ & Hm & Hmv & _). fold w' in Hm, Hmv.
  assert (n ∈ namesOf (materialsOf (Some el))) as Hn.
  { apply list_elem_of_lookup_2 in Hk. rewrite Hm, collect_names in Hk.
    unfold sortNames in Hk. by rewrite merge_sort_Permutation, app_nil_l in Hk. }
  apply elem_of_namesOf in Hn as (m & Hin & Hnamed).
  rewrite Hmv. unfold Js.truthyAt.
  destruct (decide (n = "__proto__")) as [->|Hproto].
  - by rewrite collect_vis_proto, lookup_empty.
  - by rewrite (collect_vis_named _ _ _ _ m n Hin Hnamed Hproto).
Qed.

(** X16. Clicking a row changes that row only: after
    [toggleSingleMaterial(name, visible)] the inspector has the same rows in
    the same order, the rows of that name show [visible] and the others show
    what they showed, also when the renderer call raised. *)
Theorem toggleSingleMaterial_rows name visible w :
  inspectorRows (toggleSingleMaterial name visible w).2 =
  (λ row, if decide (row.1 = name) then (row.1, visible) else row) <$> inspectorRows w.
Proof.
  rewrite toggleSingleMaterial_unfold. cbn [snd].
  pose proof (setMaterialAlpha_frame name (alphaOf visible) w)
    as (_ & Hmv & _ & _ & Hm & _).
  destruct (setMaterialAlpha name (alphaOf visible) w) as [r w1]. simpl in *.
  unfold inspectorRows. simpl. rewrite Hm, Hmv, <-list_fmap_compose.
  apply list_fmap_ext. intros k n _. simpl. unfold Js.truthyAt. case_decide as Hn.
  - subst n. by rewrite lookup_insert_eq.
  - by rewrite lookup_insert_ne.
Qed.

(** ** Case and patterns *)

Lemma located_same_case n1 n2 w :
  Js.toLowerCase n1 = Js.toLowerCase n2 → located n1 w = located n2 w.
Proof.
  intros Hlow. unfold located. apply list_find_ext. intros m.
  unfold sameNameIgnoringCase. by rewrite Hlow.
Qed.

(** Two names with the same lower-cased form are the same name to the
    setter. *)
Lemma setMaterialAlpha_same_case a b alpha w :
  Js.toLowerCase a = Js.toLowerCase b →
  (setMaterialAlpha a alpha w).1 = (setMaterialAlpha b alpha w).1 ∧
  mvRef (setMaterialAlpha a alpha w).2 = mvRef (setMaterialAlpha b alpha w).2.
Proof.
  intros Hab. pose proof (located_same_case a b w Hab) as Hloc.
  destruct (setMaterialAlpha_cases a alpha w)
    as [[-> Hwhy]|(i & m & pmr & Hl & Hpmr &
                   [[Hbcf ->]|[(Hbcf & Ham & ->)|(Hbcf & Ham & ->)]])].
  - destruct Hwhy as [Hnone|(i & m & Hl & Hpmr)].
    + rewrite Hloc in Hnone.
      by rewrite (setMaterialAlpha_not_located b alpha w Hnone).
    + rewrite Hloc in Hl.
      by rewrite (setMaterialAlpha_no_pbr b alpha w i m Hl Hpmr).
  - rewrite Hloc in Hl.
    by rewrite (setMaterialAlpha_refused b alpha w i m pmr Hl Hpmr Hbcf).
  - rewrite Hloc in Hl.
    by rewrite (setMaterialAlpha_recoloured b alpha w i m pmr Hl Hpmr Hbcf Ham).
  - rewrite Hloc in Hl.
    by rewrite (setMaterialAlpha_painted b alpha w i m pmr Hl Hpmr Hbcf Ham).
Qed.

(** X17. The setter does not look at the case of the name it is given:
    for two names with the same lower-cased form the calls end the same way
    and leave the same element; and so for a name and its lower-cased form,
    the lower-cased form being its own lower-cased form. *)
Theorem setMaterialAlpha_ignores_case n1 n2 alpha w :
  Js.toLowerCase n1 = Js.toLowerCase n2 →
  (setMaterialAlpha n1 alpha w).1 = (setMaterialAlpha n2 alpha w).1 ∧
  mvRef (setMaterialAlpha n1 alpha w).2 = mvRef (setMaterialAlpha n2 alpha w).2 ∧
  (Js.toLowerCase (Js.toLowerCase n1) = Js.toLowerCase n1 →
   (setMaterialAlpha (Js.toLowerCase n1) alpha w).1 = (setMaterialAlpha n1 alpha w).1 ∧
   mvRef (setMaterialAlpha (Js.toLowerCase n1) alpha w).2
     = mvRef (setMaterialAlpha n1 alpha w).2).
Proof.
  intros Hlow. destruct (setMaterialAlpha_same_case n1 n2 alpha w Hlow) as [? ?].
  split_and!; [done..|]. intros Hidem.
  by apply setMaterialAlpha_same_case.
Qed.

Lemma prefix_empty s : String.prefix "" s = true.
Proof. by destruct s. Qed.

Lemma includes_empty s : Js.includes s "" = true.
Proof. destruct s; simpl; by rewrite ?prefix_empty. Qed.

Lemma matching_empty_pattern patterns mats :
  Js.toLowerCase "" = "" →
  "" ∈ patterns → matching patterns mats = mats.
Proof.
  intros Hlow Hp.
  assert (∀ m, inGroup patterns m = true) as Hall.
  { intros m. unfold inGroup, matchesAny. apply existsb_exists.
    exists "". split; [by apply list_elem_of_In|]. rewrite Hlow. apply includes_empty. }
  induction mats as [|m mats IH]; [done|].
  by rewrite matching_cons, Hall, IH.
Qed.

(** X18. An empty pattern puts every material in the group. When a group
    lists the pattern [""], [updateGroupVisibility] invokes the setter once
    for every material of the asset, in order, unnamed ones included (with
    the name [""]), and sets the flag of each of these names; here with
    callable mutators. (The empty string is its own lower-cased form.) *)
Theorem updateGroupVisibility_empty_pattern w el groupKey patterns visible :
  Js.toLowerCase "" = "" →
  mvRef w = Some el →
  groups w !! groupKey = Some patterns →
  "" ∈ patterns →
  Forall mutatorsCallable (materialsOf (Some el)) →
  let w' := (updateGroupVisibility groupKey visible w).2 in
  alphaCalls (trace w') =
    alphaCalls (trace w) ++
      ((λ m, (nameOf m, alphaOf visible)) <$> materialsOf (Some el)) ∧
  ∀ m, m ∈ materialsOf (Some el) → materialVisibility w' !! nameOf m = Some visible.
Proof.
  intros Hlow Hel Hpat Hempty Hall.
  rewrite updateGroupVisibility_unfold
    by (unfold strays, Js.patternsAt; by rewrite Hpat).
  cbn zeta. rewrite Hel, Hpat. cbn [default from_option id].
  destruct patterns as [|p ps]; [by apply elem_of_nil in Hempty|].
  unfold tryCatch.
  pose proof (toggleMatching_callable (p :: ps) visible (materialsOf (Some el))
    (setGroupVisibility (λ prev, <[groupKey := visible]> prev) w)) as Hloop.
  cbn zeta in Hloop.
  change (mvRef (setGroupVisibility ?f ?y)) with (mvRef y) in Hloop.
  rewrite Hel in Hloop. destruct (Hloop Hall) as (Hres & Hcalls & Hvis & _).
  rewrite (matching_empty_pattern (p :: ps) _ Hlow Hempty) in Hcalls, Hvis.
  destruct (toggleMatching _ _ _ _) as [[[]|e] w1]; simpl in *; [|done].
  split; [done|]. intros m Hm. rewrite Hvis. by apply foldl_flags_in.
Qed.

(** X20. A group key that is no key of [groups] finds what
    [Object.prototype] holds under that name. When that is a function that
    takes arguments (as for ["constructor"]) and the asset has a material,
    the loop raises at [patterns.some]: the exception is caught and logged,
    and but for the group flag nothing changes. For every other key that is
    no key of [groups], setting the group flag is all the call does. *)
Theorem updateGroupVisibility_foreign_key w groupKey visible :
  groups w !! groupKey = None →
  let w0 := setGroupVisibility (λ prev, <[groupKey := visible]> prev) w in
  updateGroupVisibility groupKey visible w =
    (Normal tt,
     if strays groupKey w
     then record (ConsoleWarn ("Failed to toggle group " +:+ groupKey)
                    (Js.TypeError "patterns.some is not a function")) w0
     else w0) ∧
  (strays groupKey w = true ↔
   (∃ n, Js.inherited groupKey = Some (Js.PrototypeFunction (S n))) ∧
   materialsOf (mvRef w) ≠ []).
Proof.
  intros Hnone w0. split.
  - destruct (strays groupKey w) eqn:Hstray.
    + by destruct (updateGroupVisibility_strays _ visible _ Hstray) as [_ ->].
    + rewrite updateGroupVisibility_unfold by done. cbn zeta. rewrite Hnone. simpl.
      by destruct (mvRef w).
  - unfold strays, Js.patternsAt. rewrite Hnone.
    destruct (Js.inherited groupKey) as [[[|n]|]|]; simpl.
    + split; [done|]. by intros [[n [=]] _].
    + rewrite bool_decide_eq_true. split; [eauto|by intros [_ ?]].
    + split; [done|]. by intros [[n [=]] _].
    + split; [done|]. by intros [[n [=]] _].
Qed.

(** ** The group checkboxes of the third copy *)

Lemma carLoop_keeps_group_flags patterns visible mats w :
  groupVisibility (carLoop patterns visible mats w).2 = groupVisibility w.
Proof.
  revert w. induction mats as [|m mats IH]; intros w; [done|].
  rewrite carLoop_cons. destruct (inGroup patterns m); [|apply IH].
  pose proof (setMaterialAlpha_frame (nameOf m) (alphaOf visible) w) as (_&_&Hgv&_).
  destruct (setMaterialAlpha _ _ w) as [[[]|e] w1]; simpl in *; [|done].
  by rewrite IH.
Qed.

(** X19. In the copy with live group checkboxes, clicking the checkbox of
    a group makes it show what was clicked and leaves the other checkboxes
    as they were, and the click never propagates an exception: this also
    when a mutator raised and the materials of the group were not, or not
    all, changed. *)
Theorem onChangeGroup_checkbox w k checked :
  let r := CarDemo.onChangeGroup k checked w in
  r.1 = Normal tt ∧
  CarDemo.groupChecked r.2 k = checked ∧
  ∀ k', k' ≠ k → CarDemo.groupChecked r.2 k' = CarDemo.groupChecked w k'.
Proof.
  intros r. subst r. unfold CarDemo.onChangeGroup, CarDemo.groupChecked.
  set (w0 := setGroupVisibility (λ prev, <[k := checked]> prev) w).
  assert (groupVisibility w0 = <[k := checked]> (groupVisibility w)) as Hw0 by done.
  assert (∀ w1, groupVisibility w1 = groupVisibility w0 →
            Js.truthyAt (groupVisibility w1) k = checked ∧
            ∀ k', k' ≠ k → Js.truthyAt (groupVisibility w1) k'
                           = Js.truthyAt (groupVisibility w) k') as Hfin.
  { intros w1 ->. rewrite Hw0. unfold Js.truthyAt. split.
    - by rewrite lookup_insert_eq.
    - intros k' Hk'. by rewrite lookup_insert_ne. }
  destruct (strays k w) eqn:Hstray.
  { rewrite (CarDemo_updateGroupVisibility_strays _ checked _ Hstray).
    split; [done|by apply Hfin]. }
  rewrite CarDemo_updateGroupVisibility_unfold by done. cbn zeta. fold w0.
  destruct (mvRef w) as [el|]; [|split; [done|by apply Hfin]].
  destruct (default [] (groups w !! k)) as [|p ps]; [split; [done|by apply Hfin]|].
  unfold tryCatch.
  pose proof (carLoop_keeps_group_flags (p :: ps) checked (materialsOf (Some el)) w0)
    as Hgv.
  destruct (carLoop _ _ _ w0) as [[[]|e] w1]; cbn [fst snd] in *;
    (split; [done|by apply Hfin]).
Qed.

End properties.

(** * The properties on the sample data *)

#[local] Existing Instance Js.asciiRuntime.

(** C1 on the sample asset: a second load notification, arriving while
    [Body_Paint] is hidden, does not replace the cached colour. *)
Lemma onLoad_registers_materials_witness :
  materialVisibility Sample.loaded !! "Body_Paint" = Some true ∧
  originalColor Sample.loaded !! "Body_Paint" = Some (Rgba 0.75 0.25 0.5 1) ∧
  originalColor
    (run [ToggleMaterial "Body_Paint" false; Loaded Sample.chicken_hidden] Sample.loaded)
    !! "Body_Paint" = Some (Rgba 0.75 0.25 0.5 1).
Proof.
  pose proof (onLoad_registers_materials (runtime := Js.asciiRuntime) Sample.mounted Sample.chicken
    Sample.body_paint "Body_Paint" eq_refl) as H.
  destruct H as (_ & Hvis & _ & _ & _ & Hnew & Hrun).
  - apply elem_of_cons. by left.
  - reflexivity.
  - destruct (Hnew eq_refl) as (i & m0 & Hfind & Hcol & _).
    injection Hfind as <- <-.
    split_and!; [exact (Hvis ltac:(done))|exact Hcol|].
    etrans; [|exact Hcol].
    exact (Hrun [ToggleMaterial "Body_Paint" false; Loaded Sample.chicken_hidden] eq_refl).
Defined.

(** C1 as stated fails on a material without a name: it is in the loaded
    asset, and after the load notification the visibility mapping has no
    entry at all, and neither has the colour cache. The same happens to a
    material whose name is the empty string. A material named [__proto__]
    gets its colour cached and is listed, but gets no visibility flag. *)
Lemma onLoad_registers_materials_counterexample :
  let unnamed := initialWorld "/models/test1.glb"
                   (Some (Sample.element [Sample.anonymous] [])) in
  let empty := initialWorld "/models/test1.glb"
                 (Some (Sample.element [Sample.nameless] [])) in
  let proto := initialWorld "/models/test1.glb"
                 (Some (Sample.element [Sample.proto] [])) in
  Sample.anonymous ∈ materialsOf (mvRef unnamed) ∧
  (onLoad unnamed).1 = Normal tt ∧
  materialVisibility (onLoad unnamed).2 = ∅ ∧
  originalColor (onLoad unnamed).2 = ∅ ∧
  Sample.nameless ∈ materialsOf (mvRef empty) ∧
  materialVisibility (onLoad empty).2 = ∅ ∧
  Sample.proto ∈ materialsOf (mvRef proto) ∧
  materials (onLoad proto).2 = ["__proto__"] ∧
  originalColor (onLoad proto).2 !! "__proto__" = Some (Rgba 0.25 0.25 0.25 1) ∧
  materialVisibility (onLoad proto).2 = ∅.
Proof.
  split_and!; try (apply elem_of_cons; by left); by vm_compute.
Qed.

Lemma setMaterialAlpha_unknown_name_witness :
  (setMaterialAlpha "Wattle" 0 Sample.loaded).1 = Normal tt ∧
  mvRef (setMaterialAlpha "Wattle" 0 Sample.loaded).2 = mvRef Sample.loaded.
Proof.
  pose proof (setMaterialAlpha_unknown_name (runtime := Js.asciiRuntime) Sample.loaded "Wattle" 0) as H.
  destruct H as (Hres & _ & Hel & _).
  - intros m s Hm Hs. simpl in Hm.
    apply elem_of_cons in Hm as [->|Hm]; [by simplify_eq/=|].
    apply elem_of_cons in Hm as [->|Hm]; [by simplify_eq/=|].
    by apply elem_of_nil in Hm.
  - by split.
Defined.

Lemma setMaterialAlpha_without_pbr_witness :
  let w := initialWorld "/models/test1.glb" (Some (Sample.element [Sample.decal] [])) in
  (setMaterialAlpha "DECAL" 0 w).1 = Normal tt ∧
  mvRef (setMaterialAlpha "DECAL" 0 w).2 = mvRef w.
Proof.
  intros w.
  destruct (setMaterialAlpha_without_pbr (runtime := Js.asciiRuntime) w "DECAL" 0 0 Sample.decal eq_refl eq_refl)
    as (Hres & _ & Hel & _).
  by split.
Defined.

Lemma setMaterialAlpha_blend_mode_witness :
  ∃ m', materialsOf (mvRef (setMaterialAlpha "BODY_PAINT" 0 Sample.loaded).2) !! 0 = Some m' ∧
        SceneGraph.alphaMode m' = BLEND.
Proof.
  destruct (setMaterialAlpha_blend_mode (runtime := Js.asciiRuntime) Sample.loaded "BODY_PAINT" 0 0 Sample.body_paint
              _ eq_refl eq_refl eq_refl eq_refl) as (_ & m' & Hi & _ & Hblend & _).
  exists m'. split; [exact Hi|]. by apply Hblend.
Defined.

(** C6 as stated fails on a material that is found but exposes no
    [pbrMetallicRoughness]: its blend mode stays what it was, here [MASK],
    for an alpha below one and for alpha one alike. It fails as well on a
    material with a handle whose [setAlphaMode] cannot be called: the call
    with alpha one raises and the blend mode stays [BLEND]; and on one whose
    [setBaseColorFactor] cannot be called: the call with alpha zero raises
    before the blend mode is looked at, and it stays [OPAQUE]. *)
Lemma setMaterialAlpha_blend_mode_counterexample :
  let w := initialWorld "/models/test1.glb" (Some (Sample.element [Sample.decal] [])) in
  let g := initialWorld "/models/test1.glb" (Some (Sample.element [Sample.glass] [])) in
  let c := initialWorld "/models/test1.glb" (Some (Sample.element [Sample.chrome_trim] [])) in
  located "Decal" w = Some (0, Sample.decal) ∧
  Js.lt_one 0 = true ∧
  (setMaterialAlpha "Decal" 0 w).1 = Normal tt ∧
  SceneGraph.alphaMode <$> materialsOf (mvRef (setMaterialAlpha "Decal" 0 w).2) !! 0 = Some MASK ∧
  Js.lt_one 1 = false ∧
  (setMaterialAlpha "Decal" 1 w).1 = Normal tt ∧
  SceneGraph.alphaMode <$> materialsOf (mvRef (setMaterialAlpha "Decal" 1 w).2) !! 0 = Some MASK ∧
  located "Glass" g = Some (0, Sample.glass) ∧
  (setMaterialAlpha "Glass" 1 g).1 = Throw (Js.TypeError "m.setAlphaMode is not a function") ∧
  SceneGraph.alphaMode <$> materialsOf (mvRef (setMaterialAlpha "Glass" 1 g).2) !! 0 = Some BLEND ∧
  located "Chrome_Trim" c = Some (0, Sample.chrome_trim) ∧
  (setMaterialAlpha "Chrome_Trim" 0 c).1
    = Throw (Js.TypeError "pmr.setBaseColorFactor is not a function") ∧
  SceneGraph.alphaMode <$> materialsOf (mvRef (setMaterialAlpha "Chrome_Trim" 0 c).2) !! 0
    = Some OPAQUE.
Proof. by vm_compute. Qed.

Lemma setMaterialAlpha_round_trip_witness :
  let w1 := (setMaterialAlpha "body_paint" 0 Sample.loaded).2 in
  let w2 := (setMaterialAlpha "body_paint" 1 w1).2 in
  ∃ m2 pmr2,
    materialsOf (mvRef w2) !! 0 = Some m2 ∧
    SceneGraph.pbrMetallicRoughness m2 = Some pmr2 ∧
    SceneGraph.baseColorFactor pmr2 = Some (Rgba 0.75 0.25 0.5 1) ∧
    SceneGraph.alphaMode m2 = OPAQUE.
Proof.
  intros w1 w2.
  destruct (setMaterialAlpha_round_trip (runtime := Js.asciiRuntime) Sample.loaded "body_paint" 0 Sample.body_paint
              _ "Body_Paint" (Rgba 0.75 0.25 0.5 1)
              eq_refl eq_refl eq_refl eq_refl eq_refl eq_refl)
    as (_ & _ & m2 & pmr2 & Hi & _ & Hpmr & Hcol & Hmode).
  by exists m2, pmr2.
Defined.

(** C2 as stated fails on a material that is in the asset and cached at
    load but exposes no [pbrMetallicRoughness]: after the two calls it has
    no base colour at all, where the cache holds opaque white, and its blend
    mode is still [MASK]. It fails as well on a cached material with a
    handle whose [setAlphaMode] cannot be called: both calls raise, and the
    material ends with alpha one but with the blend mode it had, [BLEND];
    and on one whose [setBaseColorFactor] cannot be called: both calls
    raise and the material keeps its alpha of one half.
    And it fails on a cached material that comes after another of the same
    name up to case: the two calls with its name act on the other one, and
    it keeps its alpha of one half and its blend mode [BLEND]. *)
Lemma setMaterialAlpha_round_trip_counterexample :
  let w := (onLoad (initialWorld "/models/test1.glb"
                      (Some (Sample.element [Sample.decal] [])))).2 in
  let w2 := (setMaterialAlpha "Decal" 1 (setMaterialAlpha "Decal" 0 w).2).2 in
  let g := (onLoad (initialWorld "/models/test1.glb"
                      (Some (Sample.element [Sample.glass] [])))).2 in
  let g1 := setMaterialAlpha "Glass" 0 g in
  let g2 := setMaterialAlpha "Glass" 1 g1.2 in
  let c := (onLoad (initialWorld "/models/test1.glb"
                      (Some (Sample.element [Sample.chrome_trim] [])))).2 in
  let c1 := setMaterialAlpha "Chrome_Trim" 0 c in
  let c2 := setMaterialAlpha "Chrome_Trim" 1 c1.2 in
  let s := (onLoad (initialWorld "/models/test1.glb"
                      (Some (Sample.element
                               [Sample.body_paint; Sample.body_paint_capitals] [])))).2 in
  let s1 := setMaterialAlpha "BODY_PAINT" 0 s in
  let s2 := setMaterialAlpha "BODY_PAINT" 1 s1.2 in
  Sample.decal ∈ materialsOf (mvRef w) ∧
  originalColor w !! "Decal" = Some white ∧
  materialsOf (mvRef w2) !! 0 = Some Sample.decal ∧
  SceneGraph.pbrMetallicRoughness Sample.decal ≫= SceneGraph.baseColorFactor = None ∧
  SceneGraph.alphaMode Sample.decal = MASK ∧
  Sample.glass ∈ materialsOf (mvRef g) ∧
  originalColor g !! "Glass" = Some (Rgba 0.5 0.75 1 0.5) ∧
  g1.1 = Throw (Js.TypeError "m.setAlphaMode is not a function") ∧
  g2.1 = Throw (Js.TypeError "m.setAlphaMode is not a function") ∧
  currentColor <$> materialsOf (mvRef g2.2) !! 0 = Some (Rgba 0.5 0.75 1 1) ∧
  SceneGraph.alphaMode <$> materialsOf (mvRef g2.2) !! 0 = Some BLEND ∧
  Sample.chrome_trim ∈ materialsOf (mvRef c) ∧
  originalColor c !! "Chrome_Trim" = Some (Rgba 0.5 0.5 0.5 0.5) ∧
  c1.1 = Throw (Js.TypeError "pmr.setBaseColorFactor is not a function") ∧
  c2.1 = Throw (Js.TypeError "pmr.setBaseColorFactor is not a function") ∧
  currentColor <$> materialsOf (mvRef c2.2) !! 0 = Some (Rgba 0.5 0.5 0.5 0.5) ∧
  materialsOf (mvRef s) !! 1 = Some Sample.body_paint_capitals ∧
  originalColor s !! "BODY_PAINT" = Some (Rgba 0.5 0.75 1 0.5) ∧
  s1.1 = Normal tt ∧ s2.1 = Normal tt ∧
  materialsOf (mvRef s2.2) !! 1 = Some Sample.body_paint_capitals ∧
  SceneGraph.alphaMode Sample.body_paint_capitals = BLEND.
Proof.
  split_and!; try (apply elem_of_cons; by left); by vm_compute.
Qed.

(** C3 on the sample asset: hiding the group [Body]. *)
Lemma updateGroupVisibility_matching_witness :
  let w' := (updateGroupVisibility "Body" false Sample.loaded).2 in
  alphaCalls (trace w') = [("Body_Paint", 0%float)] ∧
  materialVisibility w' !! "Body_Paint" = Some false ∧
  materialVisibility w' !! "Eye_Lens" = Some true.
Proof.
  intros w'.
  assert (matching (default [] (groups Sample.loaded !! "Body"))
            (materialsOf (mvRef Sample.loaded)) = [Sample.body_paint]) as Hms
    by reflexivity.
  assert (∀ m, m ∈ matching (default [] (groups Sample.loaded !! "Body"))
                     (materialsOf (mvRef Sample.loaded)) →
               raises (nameOf m) Sample.loaded = false) as Hall.
  { intros m Hm. rewrite Hms in Hm. apply list_elem_of_singleton in Hm as ->.
    reflexivity. }
  destruct (updateGroupVisibility_matching (runtime := Js.asciiRuntime) Sample.loaded "Body" false Hall)
    as (_ & _ & Hcalls & Hin & Hout & _).
  split_and!.
  - exact Hcalls.
  - apply (Hin Sample.body_paint). apply elem_of_matching.
    split; [apply elem_of_cons; by left|reflexivity].
  - etrans; [apply (Hout Sample.eye_lens)|reflexivity].
    + apply elem_of_cons. right. apply elem_of_cons. by left.
    + intros [_ Hm]%elem_of_matching. discriminate Hm.
Defined.

(** C3 as stated fails on a renderer whose material [Body_Skin] has no
    [setAlphaMode]: of the two materials of the group [Body] the setter is
    invoked on the first only, and hiding the group leaves both flags
    [true]. *)
Lemma updateGroupVisibility_matching_counterexample :
  let w := Sample.fragile in
  let w' := (updateGroupVisibility "Body" false w).2 in
  matching (default [] (groups w !! "Body")) (materialsOf (mvRef w))
    = [Sample.body_skin; Sample.body_paint] ∧
  alphaCalls (trace w') = [("Body_Skin", 0%float)] ∧
  materialVisibility w' !! "Body_Skin" = Some true ∧
  materialVisibility w' !! "Body_Paint" = Some true.
Proof. by vm_compute. Qed.

(** C10 on the sample asset: the group [Comb] has patterns but no material,
    and the flag changes all the same. *)
Lemma updateGroupVisibility_group_flag_witness :
  let w' := (updateGroupVisibility "Comb" false Sample.loaded).2 in
  groupVisibility Sample.loaded !! "Comb" = Some true ∧
  groupVisibility w' !! "Comb" = Some false ∧
  mvRef w' = mvRef Sample.loaded.
Proof.
  intros w'.
  destruct (updateGroupVisibility_group_flag (runtime := Js.asciiRuntime) Sample.loaded "Comb" false)
    as (_ & Hflag & _ & Hnone).
  destruct Hnone as (Hel & _); [right; right; reflexivity|].
  split_and!; [reflexivity|exact Hflag|exact Hel].
Defined.



Lemma onLoad_without_variants_witness :
  variant Sample.loaded = "" ∧
  trace Sample.loaded = [] ∧
  variantName <$> mvRef Sample.loaded = Some None.
Proof.
  destruct (onLoad_without_variants (runtime := Js.asciiRuntime) Sample.mounted Sample.chicken eq_refl eq_refl)
    as (_ & Hv & Hel & Htr & _).
  unfold Sample.loaded. rewrite Hv, Hel, Htr. by split_and!.
Defined.

Lemma selectModel_resets_witness :
  let w := (setMaterialAlpha "Body_Paint" 0 Sample.loaded).2 in
  let w' := (step (SelectModel "/models/test2.glb") w).2 in
  originalColor w !! "Body_Paint" = Some (Rgba 0.75 0.25 0.5 1) ∧
  originalColor w' = ∅ ∧ materials w' = [] ∧ materialVisibility w' = ∅.
Proof.
  intros w w'.
  assert ("/models/test2.glb" ≠ currentModel w) as Hsrc by done.
  destruct (selectModel_resets (runtime := Js.asciiRuntime) w "/models/test2.glb" Hsrc)
    as (_ & _ & _ & _ & Hm & Hmv & Hoc & _).
  split_and!; [reflexivity|exact Hoc|exact Hm|exact Hmv].
Defined.

Lemma updateGroupVisibility_spares_others_witness :
  materialsOf (mvRef (updateGroupVisibility "Body" false Sample.loaded).2) !! 1
  = Some Sample.eye_lens.
Proof.
  exact (updateGroupVisibility_spares_others (runtime := Js.asciiRuntime) Sample.loaded "Body" false 1
           Sample.eye_lens eq_refl eq_refl).
Defined.

Lemma onLoad_lists_named_materials_witness :
  materials Sample.loaded ≡ₚ ["Body_Paint"; "Eye_Lens"] ∧
  inspectorShown Sample.loaded = true.
Proof.
  destruct (onLoad_lists_named_materials (runtime := Js.asciiRuntime) Sample.mounted Sample.chicken eq_refl)
    as (Hperm & _ & Hshown).
  split; [exact Hperm|]. apply Hshown. exists Sample.body_paint, "Body_Paint".
  split; [apply elem_of_cons; by left|reflexivity].
Defined.

Lemma onLoad_idempotent_witness :
  let w1 := (onLoad Sample.hidden).2 in
  materialVisibility (onLoad w1).2 = materialVisibility w1 ∧
  originalColor (onLoad w1).2 = originalColor w1.
Proof.
  intros w1.
  destruct (onLoad_idempotent (runtime := Js.asciiRuntime) Sample.hidden _ eq_refl) as (_ & Hmv & Hoc & _).
  by split.
Defined.

Lemma onLoad_copies_agree_witness :
  originalColor (CarDemo.onLoad Sample.mounted).2 = originalColor Sample.loaded.
Proof.
  destruct (onLoad_copies_agree (runtime := Js.asciiRuntime) Sample.mounted Sample.chicken eq_refl)
    as (_ & Hoc & _).
  symmetry. exact Hoc.
Defined.

Lemma load_selects_first_variant_witness :
  let w' := (step (Loaded (Sample.element [Sample.body_paint] ["Red"; "Blue"]))
               Sample.mounted).2 in
  variant w' = "Red" ∧ variantName <$> mvRef w' = Some (Some "Red").
Proof.
  intros w'.
  destruct (load_selects_first_variant (runtime := Js.asciiRuntime) Sample.mounted Sample.chicken
              (Sample.element [Sample.body_paint] ["Red"; "Blue"]) "Red" ["Blue"]
              eq_refl eq_refl eq_refl ltac:(done)) as (_ & _ & Hv & Hvn).
  by split.
Defined.

Lemma selectVariant_writes_witness :
  let w := (step (Loaded (Sample.element [Sample.body_paint] ["Red"; "Blue"]))
              Sample.mounted).2 in
  variantName <$> mvRef (step (SelectVariant "Blue") w).2 = Some (Some "Blue").
Proof.
  intros w.
  destruct (selectVariant_writes (runtime := Js.asciiRuntime) w _ "Blue" eq_refl ltac:(done)) as (_ & Hw & _).
  by apply Hw.
Defined.

Lemma run_keeps_inspector_consistent_witness :
  inspectorConsistent
    (run [Loaded Sample.chicken; ToggleMaterial "Body_Paint" false;
          SelectModel "/models/test2.glb"; Loaded Sample.chicken_hidden]
       (initialWorld "/models/test1.glb" (Some freshElement))).
Proof.
  apply run_keeps_inspector_consistent.
  intros n Hn. by apply elem_of_nil in Hn.
Defined.

Lemma onLoad_checks_every_row_witness :
  inspectorRows Sample.loaded = [("Body_Paint", true); ("Eye_Lens", true)].
Proof.
  etrans; [exact (onLoad_checks_every_row (runtime := Js.asciiRuntime) Sample.mounted Sample.chicken eq_refl)|].
  reflexivity.
Defined.

Lemma setMaterialAlpha_ignores_case_witness :
  mvRef (setMaterialAlpha "BODY_PAINT" 0 Sample.loaded).2
  = mvRef (setMaterialAlpha "Body_Paint" 0 Sample.loaded).2 ∧
  mvRef (setMaterialAlpha "body_paint" 0 Sample.loaded).2
  = mvRef (setMaterialAlpha "BODY_PAINT" 0 Sample.loaded).2.
Proof.
  destruct (setMaterialAlpha_ignores_case (runtime := Js.asciiRuntime) "BODY_PAINT" "Body_Paint" 0 Sample.loaded
              eq_refl) as (_ & Hsame & Hlower).
  destruct (Hlower eq_refl) as [_ Hlow].
  split; [exact Hsame|exact Hlow].
Defined.

Lemma updateGroupVisibility_empty_pattern_witness :
  alphaCalls (trace (updateGroupVisibility "All" false Sample.catch_all).2)
  = [("", 0%float); ("Eye_Lens", 0%float)].
Proof.
  destruct (updateGroupVisibility_empty_pattern (runtime := Js.asciiRuntime) Sample.catch_all
              (Sample.element [Sample.anonymous; Sample.eye_lens] [])
              "All" [""] false eq_refl eq_refl eq_refl) as [Hcalls _].
  - apply elem_of_cons. by left.
  - repeat constructor; simpl; by intros ? [= <-].
  - exact Hcalls.
Defined.

(** X5 on the sample asset. *)
Lemma hide_show_restores_witness :
  let hidden := toggleSingleMaterial "Body_Paint" false Sample.loaded in
  let shown := toggleSingleMaterial "Body_Paint" true hidden.2 in
  materialsOf (mvRef shown.2) = materialsOf (mvRef Sample.loaded) ∧
  materialVisibility shown.2 !! "Body_Paint" = Some true.
Proof.
  intros hidden shown.
  destruct (hide_show_restores (runtime := Js.asciiRuntime) Sample.mounted Sample.chicken "Body_Paint" 0
              Sample.body_paint _ "Body_Paint" (Rgba 0.75 0.25 0.5 1)
              eq_refl eq_refl eq_refl eq_refl ltac:(done) eq_refl eq_refl eq_refl
              eq_refl eq_refl eq_refl) as (_ & _ & Hmats & Hflag).
  by split.
Defined.

(** X20 on the sample asset: the key ["constructor"] ends in a warning,
    the key ["toString"] (a function without parameters) and a key unknown
    everywhere do not; all three get their flag. *)
Lemma updateGroupVisibility_foreign_key_witness :
  warnings (trace (updateGroupVisibility "constructor" false Sample.loaded).2)
  = [("Failed to toggle group constructor",
      Js.TypeError "patterns.some is not a function")] ∧
  groupVisibility (updateGroupVisibility "constructor" false Sample.loaded).2
    !! "constructor" = Some false ∧
  trace (updateGroupVisibility "toString" false Sample.loaded).2 = [] ∧
  trace (updateGroupVisibility "Wings" false Sample.loaded).2 = [].
Proof.
  destruct (updateGroupVisibility_foreign_key (runtime := Js.asciiRuntime) Sample.loaded "constructor" false eq_refl)
    as [-> _].
  destruct (updateGroupVisibility_foreign_key (runtime := Js.asciiRuntime) Sample.loaded "toString" false eq_refl)
    as [-> _].
  destruct (updateGroupVisibility_foreign_key (runtime := Js.asciiRuntime) Sample.loaded "Wings" false eq_refl)
    as [-> _].
  by vm_compute.
Defined.
